(** * Version_Compare: the folder-comparison engine of [app.py]

    A shallow embedding of the diff logic of [app.py] ([side_by_side_diff],
    [rel_map], [should_ignore], [compare_folders] and the two SFTP helpers
    they call) together with the part of CPython's [difflib.SequenceMatcher]
    that [side_by_side_diff] runs, followed by the properties of the
    engine that the specification states.

    Python integers are [Z], Python lists are [list], dictionaries are
    [gmap], sets are [gset], [str] is [string]. *)

From Stdlib Require Import ZArith Lia List String Ascii Sorted Permutation.
From stdpp Require Import base tactics option list list_numbers gmap sets
  strings sorting.

Local Open Scope Z_scope.
#[local] Set Warnings "-clear-no-such-hyp".

(** ** Python built-ins *)

Module Py.

(** [len(l)] *)
Definition len {A} (l : list A) : Z := Z.of_nat (length l).

(** [l[i]]: a negative index counts from the end; [None] stands for
    [IndexError]. *)
Definition getitem {A} (l : list A) (i : Z) : option A :=
  if decide (0 ≤ i) then l !! Z.to_nat i
  else if decide (0 ≤ i + len l) then l !! Z.to_nat (i + len l)
  else None.

(** How a slice bound is brought into [0 .. len]. *)
Definition clamp (n i : Z) : Z :=
  if decide (i < 0) then Z.max 0 (i + n) else Z.min i n.

(** [l[i:j]] *)
Definition slice {A} (l : list A) (i j : Z) : list A :=
  let lo := clamp (len l) i in
  let hi := clamp (len l) j in
  take (Z.to_nat (hi - lo)) (drop (Z.to_nat lo) l).

(** [[x] * n] *)
Definition repeat_list {A} (x : A) (n : Z) : list A := replicate (Z.to_nat n) x.

(** [enumerate(l, start)] *)
Definition enumerate {A} (start : Z) (l : list A) : list (Z * A) :=
  zip (seqZ start (len l)) l.

(** [range(lo, hi)] *)
Definition range (lo hi : Z) : list Z := seqZ lo (hi - lo).

(** [while cond: body], unrolled at most [fuel] times.  Every use below
    comes with a bound on the number of iterations, and the lemmas
    [*_done] show that the bound is never reached with the condition still
    true. *)
Fixpoint while {S} (fuel : nat) (cond : S → bool) (body : S → S) (s : S) : S :=
  match fuel with
  | O => s
  | Datatypes.S fuel' => if cond s then while fuel' cond body (body s) else s
  end.

(** [s.startswith(p)] *)
Fixpoint startswith (s p : string) {struct p} : bool :=
  match p, s with
  | EmptyString, _ => true
  | String c p', String d s' => bool_decide (c = d) && startswith s' p'
  | String _ _, EmptyString => false
  end.

(** [s[n:]] for a non-negative [n] *)
Fixpoint str_from (n : nat) (s : string) : string :=
  match n, s with
  | O, _ => s
  | Datatypes.S n', String _ s' => str_from n' s'
  | Datatypes.S _, EmptyString => EmptyString
  end.

(** [s.rstrip("/")]: all trailing slashes are removed. *)
Fixpoint rstrip_slash (s : string) : string :=
  match s with
  | EmptyString => EmptyString
  | String c s' =>
      match rstrip_slash s' with
      | EmptyString => if bool_decide (c = "/"%char) then EmptyString
                       else String c EmptyString
      | r => String c r
      end
  end.

(** Truth value of an optional string: [None] and [""] are false. *)
Definition truthy (o : option string) : bool :=
  match o with
  | Some s => negb (bool_decide (s = EmptyString))
  | None => false
  end.

End Py.

(** ** [difflib.SequenceMatcher]

    [side_by_side_diff] builds [SequenceMatcher(None, lines_old, lines_new)]
    and asks for [get_opcodes()].  The definitions follow
    [Lib/difflib.py]: [__chain_b], [find_longest_match],
    [get_matching_blocks], [get_opcodes], with [isjunk = None] and
    [autojunk = True] as the call leaves them. *)

Module Difflib.

Inductive tag := Replace | Delete | Insert | Equal.

Global Instance tag_eq_dec : EqDecision tag.
Proof. solve_decision. Defined.

(** [(i, j, k)]: [a[i:i+k]] matches [b[j:j+k]]. *)
Definition Match : Type := Z * Z * Z.

(** [(tag, i1, i2, j1, j2)] *)
Definition opcode : Type := tag * Z * Z * Z * Z.

(** Tuples compare lexicographically. *)
Definition Match_le (x y : Match) : Prop :=
  let '(i1, j1, k1) := x in
  let '(i2, j2, k2) := y in
  i1 < i2 ∨ (i1 = i2 ∧ (j1 < j2 ∨ (j1 = j2 ∧ k1 ≤ k2))).

Global Instance Match_le_dec : RelDecision Match_le.
Proof. intros [[??]?] [[??]?]; simpl; apply _. Defined.

Section SequenceMatcher.
Context {A : Type} `{Countable A}.

Record matcher := Matcher {
  seq_a : list A;
  seq_b : list A;
  b2j : gmap A (list Z);
  bjunk : gset A;
  bpopular : gset A
}.

(** The first loop of [__chain_b]: [b2j.setdefault(elt, []).append(i)]. *)
Definition chain_step (b2j : gmap A (list Z)) (ie : Z * A) : gmap A (list Z) :=
  let '(i, elt) := ie in
  <[elt := default [] (b2j !! elt) ++ [i]]> b2j.

Definition chain_index (b : list A) : gmap A (list Z) :=
  fold_left chain_step (Py.enumerate 0 b) ∅.

(** [__chain_b]: no element is junk ([isjunk] is [None]); when [b] has at
    least 200 elements, those occurring more than [n // 100 + 1] times
    are "popular" and leave [b2j]. *)
Definition chain_b (a b : list A) : matcher :=
  let b2j := chain_index b in
  let junk : gset A := ∅ in
  let n := Py.len b in
  if decide (200 ≤ n) then
    let ntest := n `div` 100 + 1 in
    let popular : gset A :=
      dom (filter (λ kv : A * list Z, ntest < Py.len kv.2) b2j) in
    Matcher a b (filter (λ kv : A * list Z, kv.1 ∉ popular) b2j) junk popular
  else Matcher a b b2j junk ∅.

Definition isbjunk (m : matcher) (o : option A) : bool :=
  match o with
  | Some x => bool_decide (x ∈ bjunk m)
  | None => false
  end.

(** [x == y] on two indexed elements.  An index out of range ([None])
    does not reach this point in a run: the guards in front of each use
    keep it inside the window searched, and the windows lie inside the
    two sequences. *)
Definition same (x y : option A) : bool :=
  match x, y with
  | Some u, Some v => bool_decide (u = v)
  | _, _ => false
  end.

(** The inner loop of [find_longest_match]:
    [for j in b2j.get(a[i], nothing)], with its [continue] and [break]. *)
Fixpoint scan_row (i blo bhi : Z) (j2len : gmap Z Z) (js : list Z)
    (newj2len : gmap Z Z) (best : Match) : gmap Z Z * Match :=
  match js with
  | [] => (newj2len, best)
  | j :: js' =>
      if decide (j < blo) then scan_row i blo bhi j2len js' newj2len best
      else if decide (bhi ≤ j) then (newj2len, best)
      else
        let k := default 0 (j2len !! (j - 1)) + 1 in
        let newj2len := <[j := k]> newj2len in
        let best := if decide (best.2 < k) then (i - k + 1, j - k + 1, k)
                    else best in
        scan_row i blo bhi j2len js' newj2len best
  end.

(** One iteration of [for i in range(alo, ahi)]. *)
Definition row_step (m : matcher) (blo bhi : Z)
    (st : gmap Z Z * Match) (i : Z) : gmap Z Z * Match :=
  let js := match Py.getitem (seq_a m) i with
            | Some x => default [] (b2j m !! x)
            | None => []
            end in
  scan_row i blo bhi st.1 js ∅ st.2.

(** The two loops that grow the match to the left; [junk] tells whether
    the loop is the one over junk elements. *)
Definition left_cond (m : matcher) (junk : bool) (alo blo : Z) (x : Match) : bool :=
  let '(besti, bestj, bestsize) := x in
  bool_decide (alo < besti) && bool_decide (blo < bestj)
  && Bool.eqb (isbjunk m (Py.getitem (seq_b m) (bestj - 1))) junk
  && same (Py.getitem (seq_a m) (besti - 1)) (Py.getitem (seq_b m) (bestj - 1)).

Definition left_body (x : Match) : Match :=
  let '(besti, bestj, bestsize) := x in (besti - 1, bestj - 1, bestsize + 1).

(** The two loops that grow the match to the right. *)
Definition right_cond (m : matcher) (junk : bool) (ahi bhi : Z) (x : Match) : bool :=
  let '(besti, bestj, bestsize) := x in
  bool_decide (besti + bestsize < ahi) && bool_decide (bestj + bestsize < bhi)
  && Bool.eqb (isbjunk m (Py.getitem (seq_b m) (bestj + bestsize))) junk
  && same (Py.getitem (seq_a m) (besti + bestsize))
          (Py.getitem (seq_b m) (bestj + bestsize)).

Definition right_body (x : Match) : Match :=
  let '(besti, bestj, bestsize) := x in (besti, bestj, bestsize + 1).

Definition extend_left (m : matcher) (junk : bool) (alo blo : Z) (x : Match) : Match :=
  Py.while (Z.to_nat (x.1.1 - alo)) (left_cond m junk alo blo) left_body x.

Definition extend_right (m : matcher) (junk : bool) (ahi bhi : Z) (x : Match) : Match :=
  Py.while (Z.to_nat (ahi - (x.1.1 + x.2))) (right_cond m junk ahi bhi) right_body x.

Definition find_longest_match (m : matcher) (alo ahi blo bhi : Z) : Match :=
  let best := (alo, blo, 0) in
  let st := fold_left (row_step m blo bhi) (Py.range alo ahi) (∅, best) in
  let best := st.2 in
  let best := extend_left m false alo blo best in
  let best := extend_right m false ahi bhi best in
  let best := extend_left m true alo blo best in
  let best := extend_right m true ahi bhi best in
  best.

(** The work list of [get_matching_blocks].  [queue] is kept with its last
    element (the one [queue.pop()] takes) at the head. *)
Definition region : Type := Z * Z * Z * Z.

Definition queue_cond (st : list region * list Match) : bool :=
  match st.1 with [] => false | _ => true end.

Definition queue_body (m : matcher) (st : list region * list Match)
    : list region * list Match :=
  match st.1 with
  | [] => st
  | (alo, ahi, blo, bhi) :: queue =>
      let '(i, j, k) := find_longest_match m alo ahi blo bhi in
      if decide (k ≠ 0) then
        let queue := if decide (alo < i ∧ blo < j)
                     then (alo, i, blo, j) :: queue else queue in
        let queue := if decide (i + k < ahi ∧ j + k < bhi)
                     then (i + k, ahi, j + k, bhi) :: queue else queue in
        (queue, st.2 ++ [(i, j, k)])
      else (queue, st.2)
  end.

(** The loop that merges adjacent blocks. *)
Definition collapse_step (st : Match * list Match) (x : Match) : Match * list Match :=
  let '((i1, j1, k1), non_adjacent) := st in
  let '(i2, j2, k2) := x in
  if decide (i1 + k1 = i2 ∧ j1 + k1 = j2) then ((i1, j1, k1 + k2), non_adjacent)
  else
    ((i2, j2, k2),
     if decide (k1 ≠ 0) then non_adjacent ++ [(i1, j1, k1)] else non_adjacent).

Definition get_matching_blocks (m : matcher) : list Match :=
  let la := Py.len (seq_a m) in
  let lb := Py.len (seq_b m) in
  let st := Py.while (Z.to_nat (2 * la + 1)) queue_cond (queue_body m)
              ([(0, la, 0, lb)], []) in
  let matching_blocks := merge_sort Match_le st.2 in
  let '((i1, j1, k1), non_adjacent) :=
    fold_left collapse_step matching_blocks ((0, 0, 0), []) in
  let non_adjacent :=
    if decide (k1 ≠ 0) then non_adjacent ++ [(i1, j1, k1)] else non_adjacent in
  non_adjacent ++ [(la, lb, 0)].

(** One iteration of the loop of [get_opcodes]. *)
Definition opcode_step (st : Z * Z * list opcode) (x : Match) : Z * Z * list opcode :=
  let '(i, j, answer) := st in
  let '(ai, bj, size) := x in
  let tag := if decide (i < ai ∧ j < bj) then Some Replace
             else if decide (i < ai) then Some Delete
             else if decide (j < bj) then Some Insert
             else None in
  let answer := match tag with
                | Some t => answer ++ [(t, i, ai, j, bj)]
                | None => answer
                end in
  let '(i, j) := (ai + size, bj + size) in
  let answer := if decide (size ≠ 0) then answer ++ [(Equal, ai, i, bj, j)]
                else answer in
  (i, j, answer).

Definition get_opcodes (m : matcher) : list opcode :=
  (fold_left opcode_step (get_matching_blocks m) (0, 0, [])).2.

End SequenceMatcher.

End Difflib.

(** ** [app.py] *)

Module App.

Import Difflib.

Inductive LineStatus := Unchanged | Modified | Removed | Added.

Global Instance LineStatus_eq_dec : EqDecision LineStatus.
Proof. solve_decision. Defined.

(** The literal each status stands for. *)
Definition LineStatus_text (s : LineStatus) : string :=
  match s with
  | Unchanged => "Unchanged"
  | Modified => "Modified"
  | Removed => "Removed"
  | Added => "Added"
  end.

Definition AlignedLinePair : Type := string * string * LineStatus.

Definition status_of_tag (t : tag) : LineStatus :=
  match t with
  | Equal => Unchanged
  | Replace => Modified
  | Delete => Removed
  | Insert => Added
  end.

(** The body of [for tag, i1, i2, j1, j2 in sm.get_opcodes()]. *)
Definition diff_step (lines_old lines_new : list string)
    (diff : list AlignedLinePair) (op : opcode) : list AlignedLinePair :=
  let '(tag, i1, i2, j1, j2) := op in
  let old_chunk := Py.slice lines_old i1 i2 in
  let new_chunk := Py.slice lines_new j1 j2 in
  let max_len := Z.max (Py.len old_chunk) (Py.len new_chunk) in
  let old_chunk := old_chunk ++ Py.repeat_list EmptyString (max_len - Py.len old_chunk) in
  let new_chunk := new_chunk ++ Py.repeat_list EmptyString (max_len - Py.len new_chunk) in
  fold_left (λ diff (on : string * string),
               diff ++ [(on.1, on.2, status_of_tag tag)])
            (zip old_chunk new_chunk) diff.

Definition side_by_side_diff (lines_old lines_new : list string)
    : list AlignedLinePair :=
  let sm := chain_b lines_old lines_new in
  fold_left (diff_step lines_old lines_new) (get_opcodes sm) [].

(** *** Remote side

    What [app.py] sees of a paramiko SFTP client.  [listdir_attr path] is
    the directory tree found at [path], as far as the recursive listing
    walks it; [open_rb path] is what
    [f.read().decode(errors="ignore").splitlines()] gives for the file at
    [path], or [None] when opening or reading raises. *)

Local Unset Elimination Schemes.
Inductive node :=
| File                                  (* [S_ISDIR(st_mode)] is false *)
| NoMode                                (* [st_mode] is [None]: [S_ISDIR] raises *)
| Dir (entries : option (list (string * node))).
                                        (* [None]: [listdir_attr] raises *)
Local Set Elimination Schemes.

Record sftp := Sftp {
  listdir_attr : string → node;
  open_rb : string → option (list string)
}.

(** [posixpath.join(a, b)] *)
Definition posixpath_join (a b : string) : string :=
  if Py.startswith b "/" then b
  else if bool_decide (a = "") || Py.startswith (String.rev a) "/" then a ++ b
  else a ++ "/" ++ b.

(** The [try] block of [list_files], on the tree found at [path] (which
    has lost its trailing slashes).  The [try] spans the whole loop: when
    [listdir_attr] raises the result is empty, and when [S_ISDIR] raises
    the files gathered so far are returned. *)
Fixpoint list_tree (n : node) (path : string) : list string :=
  match n with
  | Dir (Some entries) =>
      (fix loop (es : list (string * node)) (files : list string) : list string :=
         match es with
         | [] => files
         | (filename, e) :: es' =>
             let full := posixpath_join path filename in
             match e with
             | NoMode => files
             | Dir _ => loop es' (files ++ list_tree e (Py.rstrip_slash full))
             | File => loop es' (files ++ [full])
             end
         end) entries []
  | _ => []
  end.

Definition list_files (s : sftp) (path : string) : list string :=
  let path := Py.rstrip_slash path in
  list_tree (listdir_attr s path) path.

(** [read_file_lines]; [None] is the failure marker.  A missing path
    ([None]) makes [sftp.open] raise. *)
Definition read_file_lines (s : sftp) (filepath : option string)
    : option (list string) :=
  match filepath with
  | Some p => open_rb s p
  | None => None
  end.

(** [rel_map]: the dictionary comprehension inserts the listed paths one
    after the other, a later key replacing an earlier equal one. *)
Definition rel_map (files : list string) (root : string) : gmap string string :=
  let root := Py.rstrip_slash root in
  fold_left (λ (d : gmap string string) f,
               if Py.startswith f (root ++ "/")
               then <[Py.str_from (String.length root + 1) f := f]> d
               else d)
            files ∅.

(** [sorted] on strings: ascending in the lexicographic order of the
    characters. *)
Definition str_le (s1 s2 : string) : Prop := String.leb s1 s2 = true.

Global Instance str_le_dec : RelDecision str_le.
Proof. intros s1 s2; unfold str_le; apply _. Defined.

Definition sorted (l : list string) : list string := merge_sort str_le l.

Inductive classification :=
| BothPresentDiffed | OldOnly | NewOnly | Unreadable | Ignored.

Global Instance classification_eq_dec : EqDecision classification.
Proof. solve_decision. Defined.

(** The literal each classification stands for in [compare_folders]. *)
Definition classification_text (c : classification) : string :=
  match c with
  | BothPresentDiffed => "Side-by-side diff"
  | OldOnly => "Only in Old Folder"
  | NewOnly => "Only in New Folder"
  | Unreadable => "Binary or unreadable file"
  | Ignored => "Ignored (pattern)"
  end.

Definition FileComparisonRecord : Type :=
  string * classification * list AlignedLinePair.

Inductive side := Old | New.

Global Instance side_eq_dec : EqDecision side.
Proof. solve_decision. Defined.

(** What a run does to the outside: calls of [read_file_lines] (the
    side, the path asked for, what came back) and calls of
    [progress_callback]. *)
Inductive event :=
| EvRead (s : side) (filepath : option string) (result : option (list string))
| EvProgress (processed total : Z) (current : string).

Global Instance event_eq_dec : EqDecision event.
Proof. solve_decision. Defined.

Section Orchestrator.

(** [fnmatch.fnmatch(name, pat)] of the standard library. *)
Variable fnmatch : string → string → bool.

Definition should_ignore (rel_path : string) (patterns : list string) : bool :=
  existsb (fnmatch rel_path) patterns.

Definition notify (progress_callback : bool) (i total : Z) (rel : string)
    (tr : list event) : list event :=
  if progress_callback then tr ++ [EvProgress i total rel] else tr.

(** The body of [for i, rel in enumerate(all_files, 1)], on the pair of
    [diffs] and the events so far. *)
Definition compare_step (sftp_old sftp_new : sftp)
    (files_old files_new : gmap string string)
    (ignore_patterns : list string) (hide_ignored progress_callback : bool)
    (total : Z)
    (st : list FileComparisonRecord * list event) (ir : Z * string)
    : list FileComparisonRecord * list event :=
  let '(i, rel) := ir in
  let '(diffs, tr) := st in
  let po := files_old !! rel in
  let pn := files_new !! rel in
  if should_ignore rel ignore_patterns then
    let diffs := if negb hide_ignored then diffs ++ [(rel, Ignored, [])]
                 else diffs in
    (diffs, notify progress_callback i total rel tr)
  else
    let '(diffs, tr) :=
      if Py.truthy po && negb (Py.truthy pn) then
        (diffs ++ [(rel, OldOnly, [])], tr)
      else if Py.truthy pn && negb (Py.truthy po) then
        (diffs ++ [(rel, NewOnly, [])], tr)
      else
        let lo := read_file_lines sftp_old po in
        let tr := tr ++ [EvRead Old po lo] in
        let ln := read_file_lines sftp_new pn in
        let tr := tr ++ [EvRead New pn ln] in
        match lo, ln with
        | Some lo, Some ln =>
            (diffs ++ [(rel, BothPresentDiffed, side_by_side_diff lo ln)], tr)
        | _, _ => (diffs ++ [(rel, Unreadable, [])], tr)
        end in
    (diffs, notify progress_callback i total rel tr).

(** The two indexes and the reconciled paths, as [compare_folders]
    computes them before its loop. *)
Definition index_of (s : sftp) (folder : string) : gmap string string :=
  rel_map (list_files s folder) folder.

Definition reconcile (files_old files_new : gmap string string) : list string :=
  sorted (elements (dom files_old ∪ dom files_new)).

Definition compare_folders (sftp_old sftp_new : sftp)
    (folder_old folder_new : string) (ignore_patterns : list string)
    (hide_ignored progress_callback : bool)
    : list FileComparisonRecord * list event :=
  let files_old := index_of sftp_old folder_old in
  let files_new := index_of sftp_new folder_new in
  let all_files := reconcile files_old files_new in
  let total := Py.len all_files in
  fold_left (compare_step sftp_old sftp_new files_old files_new
               ignore_patterns hide_ignored progress_callback total)
            (Py.enumerate 1 all_files) ([], []).

End Orchestrator.

End App.

(** ** A small remote world, used to exercise the statements below *)

Module Demo.
Import Py App.
Local Open Scope string_scope.

(** A matcher for patterns of the form [*suffix]; other patterns match
    only themselves. *)
Definition suffix_match (name pat : string) : bool :=
  match pat with
  | String "*" suffix => startswith (String.rev name) (String.rev suffix)
  | _ => bool_decide (name = pat)
  end.

Definition old_server : sftp :=
  Sftp (λ path, if bool_decide (path = "/old")
                then Dir (Some [("a.txt", File); ("data.bin", File);
                                ("sub", Dir (Some [("c.txt", File); ("e.txt", File)]));
                                ("only_old.txt", File)])
                else Dir None)
       (λ p, if bool_decide (p = "/old/a.txt") then Some ["a"; "b"; "c"]
             else if bool_decide (p = "/old/sub/e.txt") then Some []
             else None).

Definition new_server : sftp :=
  Sftp (λ path, if bool_decide (path = "/new")
                then Dir (Some [("a.txt", File); ("data.bin", File);
                                ("sub", Dir (Some [("c.txt", File); ("e.txt", File)]));
                                ("only_new.txt", File)])
                else Dir None)
       (λ p, if bool_decide (p = "/new/a.txt") then Some ["a"; "x"; "c"]
             else if bool_decide (p = "/new/sub/c.txt") then Some ["c"]
             else if bool_decide (p = "/new/sub/e.txt") then Some []
             else None).

Definition run (hide_ignored progress_callback : bool) :=
  compare_folders suffix_match old_server new_server "/old" "/new/" ["*.bin"]
    hide_ignored progress_callback.

End Demo.

(** The scenarios of the specification, run on the definitions. *)
Module Scenarios.
Import Py App.
Local Open Scope string_scope.

Example align_one_changed :
  side_by_side_diff ["a"; "b"; "c"] ["a"; "x"; "c"]
  = [("a", "a", Unchanged); ("b", "x", Modified); ("c", "c", Unchanged)].
Proof. vm_compute. reflexivity. Qed.

Example align_one_added :
  side_by_side_diff ["a"] ["a"; "b"] = [("a", "a", Unchanged); ("", "b", Added)].
Proof. vm_compute. reflexivity. Qed.

Example align_uneven_replace :
  side_by_side_diff ["a"; "b"] ["c"] = [("a", "c", Modified); ("b", "", Modified)].
Proof. vm_compute. reflexivity. Qed.

Example compare_demo :
  (Demo.run false false).1
  = [("a.txt", BothPresentDiffed,
      [("a", "a", Unchanged); ("b", "x", Modified); ("c", "c", Unchanged)]);
     ("data.bin", Ignored, []);
     ("only_new.txt", NewOnly, []);
     ("only_old.txt", OldOnly, []);
     ("sub/c.txt", Unreadable, []);
     ("sub/e.txt", BothPresentDiffed, [])].
Proof. vm_compute. reflexivity. Qed.

Example compare_demo_hidden :
  (λ r : FileComparisonRecord, r.1.1) <$> (Demo.run true false).1
  = ["a.txt"; "only_new.txt"; "only_old.txt"; "sub/c.txt"; "sub/e.txt"].
Proof. vm_compute. reflexivity. Qed.

End Scenarios.

(** ** The report side of [app.py]

    [file_name_only], [file_diff_status], the rows [generate_excel_bytes]
    writes to its worksheet, and the rows and counters the page computes
    from the result of [compare_folders]. *)

Module Report.
Import Py App.
Local Open Scope string_scope.

(** [p.rfind("/")]: the index of the last slash, [-1] when there is
    none. *)
Fixpoint rfind_slash (p : string) : Z :=
  match p with
  | EmptyString => (-1)%Z
  | String c p' =>
      let r := rfind_slash p' in
      if decide (0 ≤ r)%Z then (r + 1)%Z
      else if bool_decide (c = "/"%char) then 0%Z
      else (-1)%Z
  end.

(** [posixpath.basename(p)]: [i = p.rfind("/") + 1; return p[i:]] *)
Definition posixpath_basename (p : string) : string :=
  let i := (rfind_slash p + 1)%Z in
  str_from (Z.to_nat i) p.

Definition file_name_only (path : string) : string :=
  posixpath_basename (rstrip_slash path).

(** [any(ls != "Unchanged" for _, _, ls in diff_lines)] *)
Definition any_changed (diff_lines : list AlignedLinePair) : bool :=
  existsb (λ l : AlignedLinePair, negb (bool_decide (l.2 = Unchanged))) diff_lines.

Definition file_diff_status (file_status : classification)
    (diff_lines : list AlignedLinePair) : string :=
  match file_status with
  | BothPresentDiffed =>
      if any_changed diff_lines then "Changed" else "No differences"
  | OldOnly => "Only in Old"
  | NewOnly => "Only in New"
  | _ => classification_text file_status
  end.

(** *** [generate_excel_bytes]

    The worksheet as the rows appended to it: the values of the cells of a
    row, and the fill given to its second and third cell. *)
Record sheet_row := SheetRow {
  cells : list string;
  fill : option string
}.

Global Instance sheet_row_eq_dec : EqDecision sheet_row.
Proof. solve_decision. Defined.

(** The dictionary [fills]; [None] when the status is not a key. *)
Definition fills (s : LineStatus) : option string :=
  match s with
  | Added => Some "C6EFCE"
  | Removed => Some "FFC7CE"
  | Modified => Some "FFEB9C"
  | Unchanged => None
  end.

(** [label or default] *)
Definition or_default (label default : string) : string :=
  if bool_decide (label = "") then default else label.

(** The body of [for o, n, s in lines]. *)
Definition excel_line_step (fname : string) (only_diffs : bool)
    (ws : list sheet_row) (l : AlignedLinePair) : list sheet_row :=
  let '(o, n, s) := l in
  if only_diffs && bool_decide (s = Unchanged) then ws
  else ws ++ [SheetRow [fname; o; n; LineStatus_text s] (fills s)].

(** The body of [for f, status, lines in differences]. *)
Definition excel_step (only_diffs : bool) (ws : list sheet_row)
    (rec : FileComparisonRecord) : list sheet_row :=
  let '(f, status, lines) := rec in
  match status with
  | Unreadable | Ignored => ws
  | BothPresentDiffed =>
      let fname := file_name_only f in
      fold_left (excel_line_step fname only_diffs) lines ws
  | _ =>
      let fname := file_name_only f in
      ws ++ [SheetRow [fname; ""; ""; file_diff_status status []] None]
  end.

(** The three rows at the top of the sheet. *)
Definition excel_head (old_label new_label : string) : list sheet_row :=
  [SheetRow ["GK Version Comparison — Old: " ++ or_default old_label "N/A"
             ++ " | New: " ++ or_default new_label "N/A"] None;
   SheetRow [] None;
   SheetRow ["File"; or_default old_label "Old Line";
             or_default new_label "New Line"; "Status"] None].

Definition generate_excel_rows (differences : list FileComparisonRecord)
    (old_label new_label : string) (only_diffs : bool) : list sheet_row :=
  fold_left (excel_step only_diffs) differences (excel_head old_label new_label).

(** *** The page: rows and counters *)

Record computed_row := ComputedRow {
  File : string;
  Status : string;
  RawStatus : classification;
  FullPath : string;
  DiffLines : list AlignedLinePair;
  HasChanges : bool
}.

Definition computed_rows (differences : list FileComparisonRecord)
    : list computed_row :=
  omap (λ rec : FileComparisonRecord,
          let '(f, s, l) := rec in
          match s with
          | Unreadable | Ignored => None
          | _ => Some (ComputedRow (file_name_only f) (file_diff_status s l) s f l
                         (any_changed l))
          end)
       differences.

(** [sum(1 for r in computed_rows if r["Status"] == status)] *)
Definition count_status (status : string) (rows : list computed_row) : Z :=
  len (filter (λ r, Status r = status) rows).

Definition total_changed := count_status "Changed".
Definition total_only_old := count_status "Only in Old".
Definition total_only_new := count_status "Only in New".

Definition total_text_diffed (rows : list computed_row) : Z :=
  len (filter (λ r, RawStatus r = BothPresentDiffed) rows).

(** [needle in hay] on strings *)
Fixpoint contains (hay needle : string) : bool :=
  startswith hay needle
  || match hay with
     | EmptyString => false
     | String _ hay' => contains hay' needle
     end.

Section Filters.

(** [str.lower] *)
Variable lower : string → string.

(** The three filters of the page, applied one after the other.  An
    empty selection and an empty search text leave the rows as they
    are. *)
Definition filtered_rows (rows : list computed_row)
    (selected_statuses : list string) (file_search : string)
    (has_changes_filter : bool) : list computed_row :=
  let rows := match selected_statuses with
              | [] => rows
              | _ => filter (λ r, Status r ∈ selected_statuses) rows
              end in
  let rows := if bool_decide (file_search = "") then rows
              else filter (λ r, contains (lower (File r)) (lower file_search) = true)
                     rows in
  let rows := if has_changes_filter
              then filter (λ r, HasChanges r = true) rows else rows in
  rows.

End Filters.

(** The records handed to the export when the file filter is applied:
    those whose path is the full path of a row that is shown. *)
Definition export_differences (differences : list FileComparisonRecord)
    (shown : list computed_row) : list FileComparisonRecord :=
  let keep_paths : gset string := list_to_set (FullPath <$> shown) in
  filter (λ rec : FileComparisonRecord, rec.1.1 ∈ keep_paths) differences.

End Report.


(** * Facts about the definitions *)

(** ** Strings *)

Module StrFacts.
Import Py.

Lemma app_cons c p k : (String c p ++ k = String c (p ++ k))%string.
Proof. reflexivity. Qed.

Lemma app_nil k : (EmptyString ++ k = k)%string.
Proof. reflexivity. Qed.

Lemma startswith_split s p :
  startswith s p = true → s = (p ++ str_from (String.length p) s)%string.
Proof.
  revert s; induction p as [|c p IH]; intros [|d s]; simpl; try done.
  intros [Hc Hp]%andb_prop. apply bool_decide_eq_true in Hc as ->.
  rewrite app_cons. f_equal. by apply IH.
Qed.

Lemma startswith_app p k : startswith (p ++ k) p = true.
Proof.
  induction p as [|c p IH]; [done|].
  rewrite app_cons; simpl. by rewrite bool_decide_eq_true_2, IH.
Qed.

Lemma str_from_app p k : str_from (String.length p) (p ++ k) = k.
Proof. induction p as [|c p IH]; [done|]. rewrite app_cons; simpl; auto. Qed.

Lemma length_app_slash r : String.length (r ++ "/") = (String.length r + 1)%nat.
Proof. induction r as [|c r IH]; [done|]. rewrite app_cons; simpl. by rewrite IH. Qed.

Lemma app_slash_nonempty r k : (r ++ "/" ++ k)%string ≠ EmptyString.
Proof. by destruct r. Qed.

Lemma app_assoc_slash r k : ((r ++ "/") ++ k = r ++ "/" ++ k)%string.
Proof. induction r as [|c r IH]; [done|]. rewrite !app_cons. by rewrite IH. Qed.

(** The lexicographic order on strings is a total order. *)
Lemma ascii_compare_refl c : Ascii.compare c c = Eq.
Proof. unfold Ascii.compare. apply N.compare_refl. Qed.

Lemma ascii_compare_trans c1 c2 c3 :
  Ascii.compare c1 c2 = Lt → Ascii.compare c2 c3 = Lt → Ascii.compare c1 c3 = Lt.
Proof.
  unfold Ascii.compare. rewrite !N.compare_lt_iff. apply N.lt_trans.
Qed.

Lemma compare_refl s : String.compare s s = Eq.
Proof. induction s as [|c s IH]; simpl; [done|]. by rewrite ascii_compare_refl. Qed.

Lemma compare_lt_trans s1 s2 s3 :
  String.compare s1 s2 = Lt → String.compare s2 s3 = Lt → String.compare s1 s3 = Lt.
Proof.
  revert s2 s3; induction s1 as [|c1 s1 IH]; intros [|c2 s2] [|c3 s3]; simpl;
    try done.
  destruct (Ascii.compare c1 c2) eqn:H12; try done;
    destruct (Ascii.compare c2 c3) eqn:H23; try done; intros H1 H2.
  - apply Ascii.compare_eq_iff in H12 as ->. apply Ascii.compare_eq_iff in H23 as ->.
    rewrite ascii_compare_refl. eauto.
  - apply Ascii.compare_eq_iff in H12 as ->. by rewrite H23.
  - apply Ascii.compare_eq_iff in H23 as <-. by rewrite H12.
  - by rewrite (ascii_compare_trans _ _ _ H12 H23).
Qed.

Lemma str_le_alt s1 s2 : App.str_le s1 s2 ↔ String.compare s1 s2 = Lt ∨ s1 = s2.
Proof.
  unfold App.str_le, String.leb. split.
  - destruct (String.compare s1 s2) eqn:E; try done.
    + right. by apply String.compare_eq_iff.
    + by left.
  - intros [-> | ->]; [done|]. by rewrite compare_refl.
Qed.

Global Instance str_le_total : Total App.str_le.
Proof. intros s1 s2. apply String.leb_total. Qed.

Global Instance str_le_trans : Transitive App.str_le.
Proof.
  intros s1 s2 s3. rewrite !str_le_alt.
  intros [H1 | ->] [H2 | ->]; eauto using compare_lt_trans.
Qed.

Global Instance str_le_antisym : AntiSymm (=) App.str_le.
Proof. intros s1 s2. apply String.leb_antisym. Qed.

End StrFacts.

(** ** The relative-path index *)

Module IndexFacts.
Import Py App StrFacts.

(** The prefix [rel_map] looks for, and the key it files a path under. *)
Definition prefix_of_root (root : string) : string :=
  (rstrip_slash root ++ "/")%string.

Definition key_of (root f : string) : string :=
  str_from (String.length (rstrip_slash root) + 1) f.

Lemma under_split root f :
  startswith f (prefix_of_root root) = true →
  f = (prefix_of_root root ++ key_of root f)%string.
Proof.
  intros Hf. unfold key_of. rewrite <- length_app_slash.
  by apply startswith_split.
Qed.

Lemma key_of_inj root f g :
  startswith f (prefix_of_root root) = true →
  startswith g (prefix_of_root root) = true →
  key_of root f = key_of root g → f = g.
Proof.
  intros Hf%under_split Hg%under_split Hk.
  rewrite Hf, Hg. by rewrite Hk.
Qed.

Lemma under_nonempty root f :
  startswith f (prefix_of_root root) = true → f ≠ EmptyString.
Proof.
  intros Hf%under_split ->. unfold prefix_of_root in Hf.
  rewrite app_assoc_slash in Hf. symmetry in Hf.
  by apply app_slash_nonempty in Hf.
Qed.

(** Every entry of the index, at every point of its construction, is a
    listed path under the root filed under its own key. *)
Lemma rel_map_fold_lookup r files :
  ∀ (d : gmap string string) k f,
    (∀ k f, d !! k = Some f →
            startswith f (r ++ "/") = true ∧ k = str_from (String.length r + 1) f) →
    fold_left (λ (d : gmap string string) f,
                 if startswith f (r ++ "/")
                 then <[str_from (String.length r + 1) f := f]> d else d)
              files d !! k = Some f
    ↔ d !! k = Some f
      ∨ (f ∈ files ∧ startswith f (r ++ "/") = true
         ∧ k = str_from (String.length r + 1) f).
Proof.
  induction files as [|x files IH]; intros d k f Hd; simpl.
  { split; [by left|]. intros [?|[Hin _]]; [done|]. by apply elem_of_nil in Hin. }
  rewrite IH; clear IH.
  - destruct (startswith x (r ++ "/")) eqn:Hx.
    + rewrite lookup_insert. case_decide as Hk.
      * split.
        -- intros [[= <-]|(?&?&?)]; right; [|by rewrite elem_of_cons; auto].
           split_and!; [by left|done|done].
        -- intros [Hdk|(Hin&Hf&Hkf)].
           ++ left. f_equal. destruct (Hd _ _ Hdk) as [Hf Hkf].
              rewrite <- length_app_slash in *.
              apply startswith_split in Hf, Hx.
              rewrite Hf, Hx. f_equal. congruence.
           ++ apply elem_of_cons in Hin as [->|Hin]; [by left|].
              right; auto.
      * split.
        -- intros [?|(?&?&?)]; [by left|right]. by rewrite elem_of_cons; auto.
        -- intros [?|(Hin&Hf&Hkf)]; [by left|].
           apply elem_of_cons in Hin as [->|Hin]; [congruence|]. right; auto.
    + split.
      * intros [?|(?&?&?)]; [by left|right]. by rewrite elem_of_cons; auto.
      * intros [?|(Hin&Hf&Hkf)]; [by left|].
        apply elem_of_cons in Hin as [->|Hin]; [congruence|]. right; auto.
  - intros k' f'. destruct (startswith x (r ++ "/")) eqn:Hx; [|by apply Hd].
    rewrite lookup_insert. case_decide as Hk; [|by apply Hd].
    by intros [= <-].
Qed.

Lemma rel_map_lookup files root k f :
  rel_map files root !! k = Some f
  ↔ f ∈ files ∧ startswith f (prefix_of_root root) = true ∧ k = key_of root f.
Proof.
  unfold rel_map, prefix_of_root, key_of. rewrite rel_map_fold_lookup.
  - rewrite lookup_empty. naive_solver.
  - intros ??; by rewrite lookup_empty.
Qed.

(** Two keys never share a path. *)
Lemma rel_map_key_unique files root k1 k2 f :
  rel_map files root !! k1 = Some f → rel_map files root !! k2 = Some f → k1 = k2.
Proof. rewrite !rel_map_lookup. naive_solver. Qed.

Lemma rel_map_truthy files root k f :
  rel_map files root !! k = Some f → truthy (Some f) = true.
Proof.
  intros (_&Hf&_)%rel_map_lookup. simpl.
  apply under_nonempty in Hf. by rewrite bool_decide_eq_false_2.
Qed.

(** The reconciled paths: the union of the two key sets, each key once,
    in ascending order. *)
Lemma reconcile_perm (fo fn : gmap string string) :
  reconcile fo fn ≡ₚ elements (dom fo ∪ dom fn).
Proof. apply merge_sort_Permutation. Qed.

Lemma elem_of_reconcile (fo fn : gmap string string) rel :
  rel ∈ reconcile fo fn ↔ is_Some (fo !! rel) ∨ is_Some (fn !! rel).
Proof.
  rewrite reconcile_perm, elem_of_elements, elem_of_union, !elem_of_dom. done.
Qed.

Lemma reconcile_NoDup (fo fn : gmap string string) : NoDup (reconcile fo fn).
Proof. rewrite reconcile_perm. apply NoDup_elements. Qed.

Lemma reconcile_sorted (fo fn : gmap string string) :
  StronglySorted str_le (reconcile fo fn).
Proof. apply (StronglySorted_merge_sort _). Qed.

Lemma reconcile_length (fo fn : gmap string string) :
  length (reconcile fo fn) = size (dom fo ∪ dom fn).
Proof. by rewrite reconcile_perm. Qed.

End IndexFacts.

(** ** The orchestrator's loop *)

Module LoopFacts.
Import Py App StrFacts IndexFacts.

Lemma enumerate_snd {A} start (l : list A) : (enumerate start l).*2 = l.
Proof.
  unfold enumerate. apply snd_zip. rewrite length_seqZ. unfold len. lia.
Qed.

Lemma enumerate_fst {A} start (l : list A) :
  (enumerate start l).*1 = seqZ start (len l).
Proof.
  unfold enumerate. apply fst_zip. rewrite length_seqZ. unfold len. lia.
Qed.

Lemma elem_of_enumerate_snd {A} start (l : list A) i x :
  (i, x) ∈ enumerate start l → x ∈ l.
Proof.
  intros Hin. rewrite <- (enumerate_snd start l).
  apply list_elem_of_fmap. by exists (i, x).
Qed.

Lemma concat_singletons {A B} (f : A → B) (l : list A) :
  concat (map (λ x, [f x]) l) = f <$> l.
Proof. induction l as [|x l IH]; simpl; [done|]. by rewrite IH. Qed.

Lemma elem_of_concat_map {A B} (f : A → list B) (l : list A) y :
  y ∈ concat (map f l) ↔ ∃ x, x ∈ l ∧ y ∈ f x.
Proof.
  induction l as [|x l IH]; simpl.
  - rewrite elem_of_nil. split; [done|]. intros (x&Hx&_). by apply elem_of_nil in Hx.
  - rewrite elem_of_app, IH. setoid_rewrite elem_of_cons. naive_solver.
Qed.

Lemma omap_concat {A B} (f : A → option B) (ls : list (list A)) :
  omap f (concat ls) = concat (map (λ l : list A, omap f l) ls).
Proof.
  induction ls as [|l ls IH]; simpl; [done|]. by rewrite omap_app, IH.
Qed.

(** The calls of the progress callback among the events of a run. *)
Definition progress_of (e : event) : option (Z * Z * string) :=
  match e with
  | EvProgress i total rel => Some (i, total, rel)
  | EvRead _ _ _ => None
  end.

Definition progress_calls (tr : list event) : list (Z * Z * string) :=
  omap progress_of tr.

Section Loop.
Variable fnmatch : string → string → bool.
Variables (sftp_old sftp_new : sftp) (files_old files_new : gmap string string).
Variables (ignore_patterns : list string) (hide_ignored progress_callback : bool).
Variable total : Z.

Let step := compare_step fnmatch sftp_old sftp_new files_old files_new
              ignore_patterns hide_ignored progress_callback total.

(** What one iteration adds to [diffs] and to the events. *)
Definition records_at (ir : Z * string) : list FileComparisonRecord :=
  (step ([], []) ir).1.

Definition events_at (ir : Z * string) : list event :=
  (step ([], []) ir).2.

Lemma compare_step_app diffs tr ir :
  step (diffs, tr) ir = (diffs ++ records_at ir, tr ++ events_at ir).
Proof.
  unfold records_at, events_at, step, compare_step, notify.
  destruct ir as [i rel]. simpl.
  repeat (case_match; simplify_eq/=); f_equal;
    rewrite ?app_nil_r, <- ?app_assoc; done.
Qed.

Lemma compare_fold l : ∀ diffs tr,
  fold_left step l (diffs, tr)
  = (diffs ++ concat (map records_at l), tr ++ concat (map events_at l)).
Proof.
  induction l as [|ir l IH]; intros diffs tr; simpl.
  - by rewrite !app_nil_r.
  - rewrite compare_step_app, IH. by rewrite <- !app_assoc.
Qed.

(** The three shapes an iteration can take. *)
Lemma records_at_path ir r : r ∈ records_at ir → r.1.1 = ir.2.
Proof.
  unfold records_at, step, compare_step, notify. destruct ir as [i rel]; simpl.
  repeat (case_match; simplify_eq/=);
    rewrite ?elem_of_nil, ?list_elem_of_singleton; naive_solver.
Qed.

Lemma records_at_index i j rel : records_at (i, rel) = records_at (j, rel).
Proof.
  unfold records_at, step, compare_step, notify.
  repeat (case_match; simplify_eq/=); done.
Qed.

Lemma records_at_lines ir r :
  r ∈ records_at ir → r.1.2 ≠ BothPresentDiffed → r.2 = [].
Proof.
  unfold records_at, step, compare_step, notify. destruct ir as [i rel]; simpl.
  repeat (case_match; simplify_eq/=);
    rewrite ?elem_of_nil, ?list_elem_of_singleton; naive_solver.
Qed.

Lemma records_at_shown ir :
  hide_ignored = false → ∃ c lines, records_at ir = [(ir.2, c, lines)].
Proof.
  intros Hshow. unfold records_at, step, compare_step, notify. rewrite Hshow.
  destruct ir as [i rel]; simpl.
  repeat (case_match; simplify_eq/=); eauto.
Qed.

Lemma records_shown_paths l :
  hide_ignored = false →
  (λ r : FileComparisonRecord, r.1.1) <$> concat (map records_at l) = l.*2.
Proof.
  intros Hshow. induction l as [|ir l IH]; simpl; [done|].
  rewrite fmap_app, IH. destruct (records_at_shown ir Hshow) as (c&lines&->).
  done.
Qed.

Lemma events_at_progress ir :
  progress_callback = true →
  progress_calls (events_at ir) = [(ir.1, total, ir.2)].
Proof.
  intros Hcb. unfold events_at, step, compare_step, notify. rewrite Hcb.
  destruct ir as [i rel]; simpl.
  repeat (case_match; simplify_eq/=); done.
Qed.

(** The classification of a path as the specification words it
    (sections 4.2 and 4.4): ignored first, then by presence, then by the
    outcome of the two reads. *)
Definition classify (rel : string) : classification :=
  if should_ignore fnmatch rel ignore_patterns then Ignored
  else
    match files_old !! rel, files_new !! rel with
    | Some _, None => OldOnly
    | None, Some _ => NewOnly
    | po, pn =>
        match read_file_lines sftp_old po, read_file_lines sftp_new pn with
        | Some _, Some _ => BothPresentDiffed
        | _, _ => Unreadable
        end
    end.

Lemma records_at_class ir r :
  (∀ k f, files_old !! k = Some f → truthy (Some f) = true) →
  (∀ k f, files_new !! k = Some f → truthy (Some f) = true) →
  r ∈ records_at ir → r.1.2 = classify ir.2.
Proof.
  intros Hto Htn. unfold records_at, step, compare_step, notify, classify.
  destruct ir as [i rel]; cbn [fst snd].
  destruct (should_ignore fnmatch rel ignore_patterns).
  { destruct hide_ignored; simpl;
      rewrite ?elem_of_nil, ?list_elem_of_singleton; naive_solver. }
  destruct (files_old !! rel) as [po|] eqn:Ho;
    destruct (files_new !! rel) as [pn|] eqn:Hn;
    rewrite ?(Hto _ _ Ho), ?(Htn _ _ Hn); simpl;
    repeat case_match; simplify_eq/=;
    rewrite ?elem_of_nil, ?list_elem_of_singleton; naive_solver.
Qed.

(** A read happens only in the branch of a path that is not ignored, for
    the path the index gives, and its outcome decides the record. *)
Lemma events_at_read ir s o res :
  EvRead s o res ∈ events_at ir →
  should_ignore fnmatch ir.2 ignore_patterns = false
  ∧ o = (match s with Old => files_old | New => files_new end) !! ir.2
  ∧ res = read_file_lines (match s with Old => sftp_old | New => sftp_new end) o
  ∧ records_at ir =
      [match read_file_lines sftp_old (files_old !! ir.2),
             read_file_lines sftp_new (files_new !! ir.2) with
       | Some lo, Some ln => (ir.2, BothPresentDiffed, side_by_side_diff lo ln)
       | _, _ => (ir.2, Unreadable, [])
       end].
Proof.
  unfold events_at, records_at, step, compare_step, notify.
  destruct ir as [i rel]; simpl.
  repeat (case_match; simplify_eq/=);
    rewrite ?elem_of_nil, ?elem_of_cons, ?elem_of_app, ?elem_of_nil;
    try naive_solver.
Qed.

End Loop.
End LoopFacts.

(** ** [SequenceMatcher]: loops and bounds *)

Module LoopLemmas.
Import Py.

Lemma while_inv {S} (P : S → Prop) fuel cond body (s : S) :
  P s → (∀ s, P s → cond s = true → P (body s)) → P (while fuel cond body s).
Proof.
  intros Hs Hstep. revert s Hs.
  induction fuel as [|fuel IH]; intros s Hs; simpl; [done|].
  destruct (cond s) eqn:Hc; auto.
Qed.

(** A loop whose measure [mu] drops at each turn has left its condition
    false when the fuel was at least the measure. *)
Lemma while_done {S} (P : S → Prop) (mu : S → nat) fuel cond body (s : S) :
  P s →
  (∀ s, P s → cond s = true → P (body s) ∧ (mu (body s) < mu s)%nat) →
  (mu s ≤ fuel)%nat →
  cond (while fuel cond body s) = false.
Proof.
  intros Hs Hstep. revert s Hs.
  induction fuel as [|fuel IH]; intros s Hs Hmu; simpl.
  - destruct (cond s) eqn:Hc; [|done].
    destruct (Hstep s Hs Hc) as [_ Hlt]. lia.
  - destruct (cond s) eqn:Hc; [|done].
    destruct (Hstep s Hs Hc) as [Hb Hlt]. apply IH; [done|lia].
Qed.

Lemma while_false {S} fuel cond body (s : S) :
  cond s = false → while fuel cond body s = s.
Proof. intros Hc. destruct fuel; simpl; [done|]. by rewrite Hc. Qed.

(** Induction along [for i in range(lo, hi)]. *)
Lemma fold_left_range {S} (P : Z → S → Prop) (f : S → Z → S) lo hi (s : S) :
  lo ≤ hi → P lo s →
  (∀ i s, lo ≤ i < hi → P i s → P (i + 1) (f s i)) →
  P hi (fold_left f (range lo hi) s).
Proof.
  unfold range. intros Hle Hs Hstep.
  remember (Z.to_nat (hi - lo)) as n eqn:Hn.
  revert lo s Hle Hs Hstep Hn.
  induction n as [|n IH]; intros lo s Hle Hs Hstep Hn.
  - assert (hi = lo) as -> by lia. by rewrite seqZ_nil by lia.
  - rewrite seqZ_cons by lia. simpl.
    replace (Z.pred (hi - lo)) with (hi - Z.succ lo) by lia.
    apply IH; [lia| |intros; apply Hstep; [lia|done]|lia].
    replace (Z.succ lo) with (lo + 1) by lia. apply Hstep; [lia|done].
Qed.

Lemma getitem_lookup {A} (l : list A) (i : Z) :
  0 ≤ i → getitem l i = l !! Z.to_nat i.
Proof. intros Hi. unfold getitem. by rewrite decide_True. Qed.

Lemma getitem_in_range {A} (l : list A) (i : Z) :
  0 ≤ i < len l → is_Some (getitem l i).
Proof.
  intros Hi. rewrite getitem_lookup by lia. apply lookup_lt_is_Some_2.
  unfold len in Hi. lia.
Qed.

Lemma slice_take_drop {A} (l : list A) (i j : Z) :
  0 ≤ i ≤ j → j ≤ len l →
  slice l i j = take (Z.to_nat (j - i)) (drop (Z.to_nat i) l).
Proof.
  intros Hij Hj. unfold slice, clamp.
  rewrite !decide_False by lia. by rewrite !Z.min_l by lia.
Qed.

Lemma slice_length {A} (l : list A) (i j : Z) :
  0 ≤ i ≤ j → j ≤ len l → len (slice l i j) = j - i.
Proof.
  intros Hij Hj. rewrite slice_take_drop by done. unfold len in *.
  rewrite length_take, length_drop. lia.
Qed.

Lemma slice_empty {A} (l : list A) (i j : Z) : 0 ≤ j ≤ i → slice l i j = [].
Proof.
  intros Hij. unfold slice, clamp. rewrite !decide_False by lia.
  replace (Z.to_nat _) with O by lia. done.
Qed.

Lemma slice_all {A} (l : list A) : slice l 0 (len l) = l.
Proof.
  rewrite slice_take_drop by (unfold len; lia). simpl.
  rewrite Z.sub_0_r. unfold len. rewrite Nat2Z.id. apply firstn_all.
Qed.

(** Consecutive slices join. *)
Lemma take_slice {A} (l : list A) (i j : Z) :
  0 ≤ i ≤ j → j ≤ len l →
  take (Z.to_nat i) l ++ slice l i j = take (Z.to_nat j) l.
Proof.
  intros Hij Hj. rewrite slice_take_drop by done.
  replace (Z.to_nat j) with (Z.to_nat i + Z.to_nat (j - i))%nat by lia.
  by rewrite take_take_drop.
Qed.

End LoopLemmas.

Module MatcherFacts.
Import Py Difflib LoopLemmas.

(** A match [(i, j, k)] that lies in the window [alo..ahi] x [blo..bhi]. *)
Definition inside (alo ahi blo bhi : Z) (x : Match) : Prop :=
  alo ≤ x.1.1 ∧ blo ≤ x.1.2 ∧ 0 ≤ x.2
  ∧ x.1.1 + x.2 ≤ ahi ∧ x.1.2 + x.2 ≤ bhi.

(** What [j2len] holds before row [i]: lengths of matches that end in the
    row above, inside the window. *)
Definition row_ok (alo blo bhi i : Z) (j2len : gmap Z Z) : Prop :=
  ∀ j k, j2len !! j = Some k →
    blo ≤ j < bhi ∧ 1 ≤ k ∧ k ≤ i - alo ∧ k ≤ j - blo + 1.

Section Bounds.
Context {A : Type} `{Countable A}.
Variable m : matcher (A := A).

Lemma scan_row_inside alo blo bhi i j2len js : ∀ newj2len best,
  alo ≤ i → row_ok alo blo bhi i j2len →
  row_ok alo blo bhi (i + 1) newj2len →
  inside alo (i + 1) blo bhi best →
  row_ok alo blo bhi (i + 1) (scan_row i blo bhi j2len js newj2len best).1
  ∧ inside alo (i + 1) blo bhi (scan_row i blo bhi j2len js newj2len best).2.
Proof.
  induction js as [|j js IH]; intros newj2len best Hi Hrow Hnew Hbest; simpl.
  { done. }
  destruct (decide (j < blo)); [by apply IH|].
  destruct (decide (bhi ≤ j)); [done|].
  assert (0 ≤ default 0 (j2len !! (j - 1)) ≤ i - alo
          ∧ default 0 (j2len !! (j - 1)) ≤ j - blo) as Hk.
  { destruct (j2len !! (j - 1)) as [k0|] eqn:Hj; simpl; [|lia].
    apply Hrow in Hj. lia. }
  apply IH; [done|done| |].
  - intros j' k'. rewrite lookup_insert. case_decide as Hjj.
    + intros [= <-]. subst j'. lia.
    + apply Hnew.
  - case_decide; [|done]. unfold inside; simpl. lia.
Qed.

Lemma rows_inside alo ahi blo bhi :
  alo ≤ ahi → blo ≤ bhi →
  inside alo ahi blo bhi
    (fold_left (row_step m blo bhi) (range alo ahi) (∅, (alo, blo, 0))).2.
Proof.
  intros Ha Hb.
  apply (fold_left_range
           (λ i st, row_ok alo blo bhi i st.1 ∧ inside alo i blo bhi st.2)
           (row_step m blo bhi) alo ahi); [done| |].
  - simpl. split; [|unfold inside; simpl; lia].
    intros j k. by rewrite lookup_empty.
  - intros i [j2len best] Hi (Hrow&Hbest); simpl in *. unfold row_step; simpl.
    destruct (scan_row_inside alo blo bhi i j2len
                (match getitem (seq_a m) i with
                 | Some x => default [] (b2j m !! x)
                 | None => []
                 end) ∅ best) as [Hr Hb']; [lia|done| |..].
    + intros j k. by rewrite lookup_empty.
    + unfold inside in *. lia.
    + done.
Qed.

Lemma extend_left_inside junk alo ahi blo bhi x :
  inside alo ahi blo bhi x → inside alo ahi blo bhi (extend_left m junk alo blo x).
Proof.
  intros Hx. unfold extend_left. apply while_inv; [done|].
  intros [[i j] k] Hs Hc. unfold left_cond in Hc.
  repeat (apply andb_prop in Hc as [Hc ?]).
  apply bool_decide_eq_true in Hc.
  match goal with Hj : bool_decide (blo < j) = true |- _ =>
    apply bool_decide_eq_true in Hj end.
  unfold inside in *; simpl in *. lia.
Qed.

Lemma extend_right_inside junk alo ahi blo bhi x :
  inside alo ahi blo bhi x → inside alo ahi blo bhi (extend_right m junk ahi bhi x).
Proof.
  intros Hx. unfold extend_right. apply while_inv; [done|].
  intros [[i j] k] Hs Hc. unfold right_cond in Hc.
  repeat (apply andb_prop in Hc as [Hc ?]).
  apply bool_decide_eq_true in Hc.
  match goal with Hj : bool_decide (j + k < bhi) = true |- _ =>
    apply bool_decide_eq_true in Hj end.
  unfold inside in *; simpl in *. lia.
Qed.

(** The match [find_longest_match] returns lies in the window it was asked
    to search. *)
Lemma find_longest_match_inside alo ahi blo bhi :
  alo ≤ ahi → blo ≤ bhi →
  inside alo ahi blo bhi (find_longest_match m alo ahi blo bhi).
Proof.
  intros Ha Hb. unfold find_longest_match.
  apply extend_right_inside, extend_left_inside, extend_right_inside,
    extend_left_inside.
  by apply rows_inside.
Qed.

(** The four extension loops stop because their condition fails, not
    because the bound on their turns is reached. *)
Lemma extend_left_done junk alo blo x :
  left_cond m junk alo blo (extend_left m junk alo blo x) = false.
Proof.
  unfold extend_left.
  apply (while_done (λ _, True) (λ s : Match, Z.to_nat (s.1.1 - alo)));
    [done| |done].
  intros [[i j] k] _ Hc. split; [done|]. unfold left_cond in Hc.
  repeat (apply andb_prop in Hc as [Hc ?]).
  apply bool_decide_eq_true in Hc. simpl. lia.
Qed.

Lemma extend_right_done junk ahi bhi x :
  right_cond m junk ahi bhi (extend_right m junk ahi bhi x) = false.
Proof.
  unfold extend_right.
  apply (while_done (λ _, True) (λ s : Match, Z.to_nat (ahi - (s.1.1 + s.2))));
    [done| |done].
  intros [[i j] k] _ Hc. split; [done|]. unfold right_cond in Hc.
  repeat (apply andb_prop in Hc as [Hc ?]).
  apply bool_decide_eq_true in Hc. simpl. lia.
Qed.

End Bounds.
End MatcherFacts.

(** ** [get_matching_blocks]: the work list *)

Module BlockFacts.
Import Py Difflib LoopLemmas MatcherFacts.

(** The window a block covers. *)
Definition box_of (x : Match) : region :=
  (x.1.1, x.1.1 + x.2, x.1.2, x.1.2 + x.2).

(** [r1] ends, in both sequences, where [r2] has not begun. *)
Definition before (r1 r2 : region) : Prop :=
  let '(_, ahi1, _, bhi1) := r1 in
  let '(alo2, _, blo2, _) := r2 in
  ahi1 ≤ alo2 ∧ bhi1 ≤ blo2.

Definition apart (r1 r2 : region) : Prop := before r1 r2 ∨ before r2 r1.

Definition proper (la lb : Z) (r : region) : Prop :=
  let '(alo, ahi, blo, bhi) := r in
  0 ≤ alo ∧ alo ≤ ahi ∧ ahi ≤ la ∧ 0 ≤ blo ∧ blo ≤ bhi ∧ bhi ≤ lb.

Definition within (outer inner : region) : Prop :=
  let '(alo, ahi, blo, bhi) := outer in
  let '(alo', ahi', blo', bhi') := inner in
  alo ≤ alo' ∧ alo' ≤ ahi' ∧ ahi' ≤ ahi ∧ blo ≤ blo' ∧ blo' ≤ bhi' ∧ bhi' ≤ bhi.

(** [block x y]: block [x] ends before block [y] begins. *)
Definition precedes (x y : Match) : Prop :=
  x.1.1 + x.2 ≤ y.1.1 ∧ x.1.2 + x.2 ≤ y.1.2.

Global Instance apart_sym : Symmetric apart.
Proof. intros r1 r2 [?|?]; [by right|by left]. Qed.

Lemma apart_within r n x : within r n → apart r x → apart n x.
Proof.
  destruct r as [[[??]?]?], n as [[[??]?]?], x as [[[??]?]?].
  unfold within, apart, before. lia.
Qed.

Lemma StronglySorted_sym_perm {B} (R : relation B) `{!Symmetric R} l1 l2 :
  l1 ≡ₚ l2 → StronglySorted R l1 → StronglySorted R l2.
Proof.
  induction 1 as [|x l1 l2 Hp IH|x y l|l1 l2 l3 _ IH1 _ IH2]; [done| | |auto].
  - rewrite !StronglySorted_cons. intros [Hx Hl]. split; [|auto].
    by rewrite <- Hp.
  - rewrite !StronglySorted_cons, !Forall_cons.
    intros [[Hyx Hy] [Hx Hl]]. split_and!; done.
Qed.

Lemma StronglySorted_both {B} (R1 R2 R3 : relation B) l :
  (∀ x y, x ∈ l → y ∈ l → R1 x y → R2 x y → R3 x y) →
  StronglySorted R1 l → StronglySorted R2 l → StronglySorted R3 l.
Proof.
  induction l as [|x l IH]; intros Himp; [constructor|].
  rewrite !StronglySorted_cons, !Forall_forall.
  intros [H1 Hl1] [H2 Hl2]. split.
  - intros y Hy. apply Himp; [by left|by right|auto..].
  - apply IH; [|done..]. intros ????. apply Himp; by right.
Qed.

Lemma StronglySorted_fmap_inv {B C} (f : B → C) (R : relation C) l :
  StronglySorted R (f <$> l) → StronglySorted (λ x y, R (f x) (f y)) l.
Proof.
  induction l as [|x l IH]; simpl; [constructor|].
  rewrite !StronglySorted_cons, Forall_fmap. intros [??]. split; auto.
Qed.

(** The tuple order is a total preorder. *)
Global Instance Match_le_total : Total Match_le.
Proof. intros [[??]?] [[??]?]. unfold Match_le. lia. Qed.

Global Instance Match_le_trans : Transitive Match_le.
Proof. intros [[??]?] [[??]?] [[??]?]. unfold Match_le. lia. Qed.

Section Queue.
Context {A : Type} `{Countable A}.
Variable m : matcher (A := A).

Local Abbreviation la := (len (seq_a m)).
Local Abbreviation lb := (len (seq_b m)).

(** What holds of the work list and the blocks found so far: the windows
    still to search and the blocks are pairwise apart, and all lie in the
    two sequences. *)
Definition queue_ok (st : list region * list Match) : Prop :=
  StronglySorted apart (st.1 ++ (box_of <$> st.2))
  ∧ Forall (proper la lb) st.1
  ∧ Forall (λ x, inside 0 la 0 lb x ∧ 1 ≤ x.2) st.2.

Definition queue_measure (st : list region * list Match) : nat :=
  sum_list_with (λ r : region, Z.to_nat (2 * (r.1.1.2 - r.1.1.1) + 1)) st.1.

Lemma queue_step st :
  queue_ok st → queue_cond st = true →
  queue_ok (queue_body m st)
  ∧ (queue_measure (queue_body m st) < queue_measure st)%nat.
Proof.
  destruct st as [[|[[[alo ahi] blo] bhi] queue] blocks]; [done|].
  intros (Hss&Hq&Hb) _. simpl in *.
  apply Forall_cons in Hq as [Hr Hq]. unfold proper in Hr.
  pose proof (find_longest_match_inside m alo ahi blo bhi) as Hin.
  unfold queue_body; simpl.
  destruct (find_longest_match m alo ahi blo bhi) as [[i j] k].
  unfold inside in Hin; simpl in Hin.
  destruct Hin as (?&?&?&?&?); [lia..|].
  apply StronglySorted_cons in Hss as [Hr_rest Hrest].
  destruct (decide (k ≠ 0)) as [Hk|Hk]; simpl.
  2: { split; [done|]. unfold queue_measure; simpl. lia. }
  set (lower := if decide (alo < i ∧ blo < j)
               then [(alo, i, blo, j)] else [] : list region).
  set (upper := if decide (i + k < ahi ∧ j + k < bhi)
                then [(i + k, ahi, j + k, bhi)] else [] : list region).
  assert ((if decide (i + k < ahi ∧ j + k < bhi)
           then (i + k, ahi, j + k, bhi)
                  :: (if decide (alo < i ∧ blo < j)
                      then (alo, i, blo, j) :: queue else queue)
           else if decide (alo < i ∧ blo < j)
                then (alo, i, blo, j) :: queue else queue)
          = upper ++ lower ++ queue) as ->.
  { unfold lower, upper. by repeat case_decide. }
  assert (Forall (within (alo, ahi, blo, bhi)) (upper ++ lower ++ [box_of (i, j, k)]))
    as Hnew.
  { unfold lower, upper, box_of. repeat case_decide; simpl;
      repeat (apply Forall_cons; split); try apply Forall_nil;
      unfold within; lia. }
  assert (StronglySorted apart (upper ++ lower ++ [box_of (i, j, k)])) as Hnews.
  { unfold lower, upper, box_of. repeat case_decide; simpl;
      repeat (apply SSorted_cons; [|repeat (apply Forall_cons; split)]);
      try apply SSorted_nil; try apply Forall_nil;
      unfold apart, before; lia. }
  split; [split_and!|].
  - apply (StronglySorted_sym_perm apart
             ((upper ++ lower ++ [box_of (i, j, k)])
              ++ queue ++ (box_of <$> blocks))).
    { cbn [fst snd]. rewrite fmap_app; simpl. rewrite <- !app_assoc.
      do 2 apply Permutation_app_head.
      rewrite (Permutation_app_comm [box_of (i, j, k)]).
      by rewrite <- app_assoc. }
    apply StronglySorted_app_2; [|done|done].
    intros n x Hn Hx. rewrite Forall_forall in Hnew, Hr_rest.
    eapply apart_within; eauto.
  - unfold lower, upper. repeat case_decide;
      repeat (apply Forall_cons; split); try done; unfold proper; lia.
  - apply Forall_app; split; [done|].
    apply Forall_cons; split; [|done]. unfold inside; simpl. lia.
  - unfold queue_measure, lower, upper; simpl.
    repeat case_decide; simpl; lia.
Qed.

Lemma queue_start : queue_ok ([(0, la, 0, lb)], []).
Proof.
  split_and!; simpl.
  - apply SSorted_cons; [apply SSorted_nil|done].
  - apply Forall_cons; split; [|done]. unfold proper, len. lia.
  - done.
Qed.

(** The blocks found when the work list has run empty. *)
Definition found : list region * list Match :=
  while (Z.to_nat (2 * la + 1)) queue_cond (queue_body m) ([(0, la, 0, lb)], []).

(** The loop ends with an empty work list: the bound on its turns is not
    what stops it. *)
Lemma found_done : found.1 = [].
Proof.
  assert (queue_cond found = false) as Hc.
  { unfold found. apply (while_done queue_ok queue_measure).
    - apply queue_start.
    - apply queue_step.
    - unfold queue_measure; simpl. lia. }
  unfold queue_cond in Hc. by destruct (found.1).
Qed.

Lemma found_ok : queue_ok found.
Proof.
  unfold found. apply while_inv; [apply queue_start|].
  intros st Hst Hc. by apply queue_step.
Qed.

End Queue.
End BlockFacts.

(** ** [get_matching_blocks] and [get_opcodes]: the blocks form a chain,
    the opcodes tile both sequences *)

Module OpcodeFacts.
Import Py Difflib LoopLemmas MatcherFacts BlockFacts.

(** Blocks in the two sequences, each ending before the next begins. *)
Definition chain_ok (la lb : Z) (l : list Match) : Prop :=
  StronglySorted precedes l ∧ Forall (inside 0 la 0 lb) l.

(** The end of the merging loop of [get_matching_blocks]. *)
Definition flush (st : Match * list Match) : list Match :=
  let '((i1, j1, k1), non_adjacent) := st in
  if decide (k1 ≠ 0) then non_adjacent ++ [(i1, j1, k1)] else non_adjacent.

Lemma chain_ok_drop la lb l1 x l2 :
  chain_ok la lb (l1 ++ x :: l2) → chain_ok la lb (l1 ++ l2).
Proof.
  unfold chain_ok.
  rewrite !StronglySorted_app, !StronglySorted_cons, !Forall_app, !Forall_cons.
  intros ((Hx&Hl1&_&Hl2)&?&_&?). split_and!; try done.
  intros x1 x2 ??. apply Hx; [done|by right].
Qed.

Lemma collapse_chain la lb rest : ∀ cur acc,
  chain_ok la lb (acc ++ cur :: rest) →
  chain_ok la lb (flush (fold_left collapse_step rest (cur, acc))).
Proof.
  induction rest as [|[[i2 j2] k2] rest IH]; intros [[i1 j1] k1] acc Hc; simpl.
  - case_decide; [done|]. apply chain_ok_drop in Hc. by rewrite app_nil_r in Hc.
  - case_decide as Hadj.
    + apply IH. destruct Hadj as [<- <-]. clear IH.
      unfold chain_ok in *.
      rewrite !StronglySorted_app, !StronglySorted_cons, !Forall_app,
        !Forall_cons, !Forall_forall in *.
      destruct Hc as ((Hx&Hl1&Hcur&Hx2&Hrest)&Hacc&Hin1&Hin2&Hinr).
      split_and!; try done.
      * intros x1 x2 Hx1 [->|Hx2r]%elem_of_cons.
        -- specialize (Hx x1 (i1, j1, k1) Hx1 ltac:(by left)).
           unfold precedes in *; simpl in *. lia.
        -- apply Hx; [done|]. by do 2 right.
      * intros y Hy. specialize (Hx2 y Hy).
        unfold precedes in *; simpl in *. lia.
      * unfold inside in *; simpl in *. lia.
    + case_decide.
      * apply IH. by rewrite <- app_assoc.
      * apply IH. by apply chain_ok_drop in Hc.
Qed.

Section Blocks.
Context {A : Type} `{Countable A}.
Variable m : matcher (A := A).

Local Abbreviation la := (len (seq_a m)).
Local Abbreviation lb := (len (seq_b m)).

Lemma get_matching_blocks_eq :
  get_matching_blocks m
  = flush (fold_left collapse_step (merge_sort Match_le (found m).2) ((0, 0, 0), []))
    ++ [(la, lb, 0)].
Proof.
  unfold get_matching_blocks, found, flush.
  by destruct (fold_left _ _ _) as [[[??]?]?].
Qed.

Lemma sorted_blocks_chain :
  StronglySorted precedes (merge_sort Match_le (found m).2)
  ∧ Forall (inside 0 la 0 lb) (merge_sort Match_le (found m).2).
Proof.
  destruct (found_ok m) as (Hss&_&Hb). rewrite found_done in Hss; simpl in Hss.
  pose proof (merge_sort_Permutation Match_le (found m).2) as Hperm.
  assert (Forall (λ x : Match, inside 0 la 0 lb x ∧ 1 ≤ x.2)
            (merge_sort Match_le (found m).2)) as Hb'.
  { by rewrite Hperm. }
  split.
  - apply (StronglySorted_both Match_le (λ x y, apart (box_of x) (box_of y))).
    + intros [[i1 j1] k1] [[i2 j2] k2] Hx Hy Hle Hap.
      rewrite Forall_forall in Hb'.
      destruct (Hb' _ Hx) as [_ ?], (Hb' _ Hy) as [_ ?].
      unfold Match_le, apart, before, box_of, precedes in *; simpl in *. lia.
    + apply (StronglySorted_merge_sort _).
    + apply StronglySorted_fmap_inv.
      eapply (StronglySorted_sym_perm apart); [|done].
      by rewrite Hperm.
  - eapply Forall_impl; [done|]. by intros ? [? _].
Qed.

(** The matching blocks lie in the two sequences, each ends before the
    next begins, and the last is the sentinel. *)
Lemma matching_blocks_chain : chain_ok la lb (get_matching_blocks m).
Proof.
  rewrite get_matching_blocks_eq.
  destruct sorted_blocks_chain as [Hss Hin].
  pose proof (collapse_chain la lb (merge_sort Match_le (found m).2)
                (0, 0, 0) []) as Hc.
  destruct Hc as [Hss' Hin'].
  { split; simpl.
    - apply SSorted_cons; [done|].
      eapply Forall_impl; [done|]. intros [[??]?].
      unfold inside, precedes; simpl. lia.
    - apply Forall_cons; split; [|done].
      unfold inside, len; simpl. lia. }
  split.
  - apply StronglySorted_app_2; [|done|].
    + intros x1 x2 Hx1 ->%list_elem_of_singleton.
      rewrite Forall_forall in Hin'. specialize (Hin' _ Hx1).
      unfold inside, precedes in *; simpl in *. lia.
    + apply SSorted_cons; [apply SSorted_nil|done].
  - apply Forall_app; split; [done|].
    apply Forall_cons; split; [|done].
    unfold inside, len; simpl. lia.
Qed.

(** *** Opcodes *)

Definition valid_op (op : opcode) : Prop :=
  let '(t, i1, i2, j1, j2) := op in
  0 ≤ i1 ∧ i1 ≤ i2 ∧ i2 ≤ la ∧ 0 ≤ j1 ∧ j1 ≤ j2 ∧ j2 ≤ lb
  ∧ match t with
    | Replace => i1 < i2 ∧ j1 < j2
    | Delete => i1 < i2 ∧ j1 = j2
    | Insert => i1 = i2 ∧ j1 < j2
    | Equal => i1 < i2 ∧ i2 - i1 = j2 - j1
    end.

(** The part of [a], and of [b], an opcode is about. *)
Definition old_run (op : opcode) : list A :=
  let '(_, i1, i2, _, _) := op in slice (seq_a m) i1 i2.

Definition new_run (op : opcode) : list A :=
  let '(_, _, _, j1, j2) := op in slice (seq_b m) j1 j2.

(** [answer] describes how to turn [a[:i]] into [b[:j]]. *)
Definition tiles (answer : list opcode) (i j : Z) : Prop :=
  Forall valid_op answer
  ∧ concat (old_run <$> answer) = take (Z.to_nat i) (seq_a m)
  ∧ concat (new_run <$> answer) = take (Z.to_nat j) (seq_b m).

Lemma tiles_snoc answer t i i2 j j2 :
  tiles answer i j → valid_op (t, i, i2, j, j2) →
  tiles (answer ++ [(t, i, i2, j, j2)]) i2 j2.
Proof.
  intros (Hv&Ha&Hb) Hop. pose proof Hop as (?&?&?&?&?&?&_).
  split_and!.
  - apply Forall_app; split; [done|]. by apply Forall_cons.
  - rewrite fmap_app, concat_app, Ha; simpl. rewrite app_nil_r.
    by apply take_slice.
  - rewrite fmap_app, concat_app, Hb; simpl. rewrite app_nil_r.
    by apply take_slice.
Qed.

Lemma opcode_step_tiles i j answer x :
  tiles answer i j → 0 ≤ i ≤ x.1.1 → 0 ≤ j ≤ x.1.2 → inside 0 la 0 lb x →
  (opcode_step (i, j, answer) x).1.1 = x.1.1 + x.2
  ∧ (opcode_step (i, j, answer) x).1.2 = x.1.2 + x.2
  ∧ tiles (opcode_step (i, j, answer) x).2 (x.1.1 + x.2) (x.1.2 + x.2).
Proof.
  destruct x as [[ai bj] size]. unfold inside; simpl.
  intros Ht Hi Hj (_&_&?&?&?).
  set (answer1 := match (if decide (i < ai ∧ j < bj) then Some Replace
                         else if decide (i < ai) then Some Delete
                         else if decide (j < bj) then Some Insert
                         else None) with
                  | Some t => answer ++ [(t, i, ai, j, bj)]
                  | None => answer
                  end).
  assert (tiles answer1 ai bj) as Ht1.
  { unfold answer1. repeat case_decide.
    - apply tiles_snoc; [done|]. unfold valid_op. lia.
    - assert (j = bj) as -> by lia.
      apply tiles_snoc; [done|]. unfold valid_op. lia.
    - assert (i = ai) as -> by lia.
      apply tiles_snoc; [done|]. unfold valid_op. lia.
    - by assert (i = ai ∧ j = bj) as [<- <-] by lia. }
  split_and!; [done|done|].
  case_decide.
  - apply tiles_snoc; [done|]. unfold valid_op. lia.
  - assert (size = 0) as -> by lia. by rewrite !Z.add_0_r.
Qed.

Lemma opcode_fold_tiles blocks : ∀ i j answer,
  tiles answer i j → 0 ≤ i → 0 ≤ j →
  chain_ok la lb (blocks ++ [(la, lb, 0)]) →
  Forall (λ y : Match, i ≤ y.1.1 ∧ j ≤ y.1.2) (blocks ++ [(la, lb, 0)]) →
  tiles (fold_left opcode_step (blocks ++ [(la, lb, 0)]) (i, j, answer)).2 la lb.
Proof.
  induction blocks as [|x blocks IH]; intros i j answer Ht Hi Hj [Hss Hin] Hge;
    cbn [app fold_left] in *.
  - apply Forall_cons in Hge as [[??] _]. apply Forall_cons in Hin as [Hin _].
    destruct (opcode_step_tiles i j answer (la, lb, 0)) as (_&_&Hres);
      [done|simpl in *; lia|simpl in *; lia|done|].
    simpl in Hres. by rewrite !Z.add_0_r in Hres.
  - apply Forall_cons in Hge as [[??] _]. apply Forall_cons in Hin as [Hx Hin].
    apply StronglySorted_cons in Hss as [Hnext Hss].
    destruct (opcode_step_tiles i j answer x) as (Hi'&Hj'&Hres);
      [done|simpl in *; lia|simpl in *; lia|done|].
    destruct (opcode_step (i, j, answer) x) as [[i' j'] answer']; simpl in *.
    subst i' j'. unfold inside in Hx.
    apply IH; [done|lia|lia|done|].
    eapply Forall_impl; [exact Hnext|]. by intros y [??].
Qed.

(** The opcodes are well formed and, read in order, walk through [a]
    and through [b] from the first element to the last. *)
Lemma get_opcodes_tiles : tiles (get_opcodes m) la lb.
Proof.
  unfold get_opcodes. pose proof matching_blocks_chain as Hc.
  rewrite get_matching_blocks_eq in *.
  apply opcode_fold_tiles; [|done|done|done|].
  - split_and!; [done|by rewrite take_0..].
  - destruct Hc as [_ Hin]. eapply Forall_impl; [exact Hin|].
    intros y. unfold inside. lia.
Qed.

Lemma get_opcodes_valid : Forall valid_op (get_opcodes m).
Proof. apply get_opcodes_tiles. Qed.

Lemma get_opcodes_old : concat (old_run <$> get_opcodes m) = seq_a m.
Proof.
  destruct get_opcodes_tiles as (_&->&_). apply take_ge. unfold len. lia.
Qed.

Lemma get_opcodes_new : concat (new_run <$> get_opcodes m) = seq_b m.
Proof.
  destruct get_opcodes_tiles as (_&_&->). apply take_ge. unfold len. lia.
Qed.

End Blocks.
End OpcodeFacts.

(** ** [side_by_side_diff] *)

Module AlignFacts.
Import Py Difflib App LoopLemmas MatcherFacts BlockFacts OpcodeFacts.

(** The loop of [side_by_side_diff] over a list of opcodes. *)
Definition emit (lines_old lines_new : list string) (ops : list opcode)
    : list AlignedLinePair :=
  fold_left (diff_step lines_old lines_new) ops [].

(** Two runs paired position by position, the shorter one filled up with
    empty strings. *)
Fixpoint pad_zip (olds news : list string) : list (string * string) :=
  match olds, news with
  | [], _ => (λ n, (EmptyString, n)) <$> news
  | _, [] => (λ o, (o, EmptyString)) <$> olds
  | o :: olds', n :: news' => (o, n) :: pad_zip olds' news'
  end.

(** The pairs one opcode gives. *)
Definition run_of (lines_old lines_new : list string) (op : opcode)
    : list AlignedLinePair :=
  let '(tag, i1, i2, j1, j2) := op in
  (λ on : string * string, (on.1, on.2, status_of_tag tag))
    <$> pad_zip (slice lines_old i1 i2) (slice lines_new j1 j2).

Lemma pad_amount {B} (l k : list B) :
  Z.to_nat (Z.max (len l) (len k) - len l) = (length k - length l)%nat.
Proof. unfold len. lia. Qed.

Lemma pad_amount' {B} (l k : list B) :
  Z.to_nat (Z.max (len l) (len k) - len k) = (length l - length k)%nat.
Proof. unfold len. lia. Qed.

Lemma zip_padded (olds news : list string) :
  zip (olds ++ replicate (length news - length olds) EmptyString)
      (news ++ replicate (length olds - length news) EmptyString)
  = pad_zip olds news.
Proof.
  revert news. induction olds as [|o olds IH]; intros news.
  - simpl. rewrite Nat.sub_0_r, app_nil_r.
    induction news as [|n news IHn]; simpl; [done|]. by rewrite IHn.
  - destruct news as [|n news]; simpl.
    + f_equal. specialize (IH []). simpl in IH.
      rewrite Nat.sub_0_r in IH. rewrite IH. by destruct olds.
    + by rewrite IH.
Qed.

Lemma pad_zip_nil_r olds : pad_zip olds [] = (λ o, (o, EmptyString)) <$> olds.
Proof. by destruct olds. Qed.

Lemma pad_zip_same_length olds news :
  length olds = length news → pad_zip olds news = zip olds news.
Proof.
  revert news. induction olds as [|o olds IH]; intros [|n news]; simpl;
    try done.
  intros [=]. by rewrite IH.
Qed.

Lemma pad_zip_length olds news :
  length (pad_zip olds news) = Nat.max (length olds) (length news).
Proof.
  revert news. induction olds as [|o olds IH]; intros [|n news]; simpl;
    rewrite ?length_fmap, ?IH; done.
Qed.

Lemma pad_zip_lookup olds news k :
  (k < Nat.max (length olds) (length news))%nat →
  pad_zip olds news !! k = Some (nth k olds EmptyString, nth k news EmptyString).
Proof.
  rewrite !nth_lookup. revert news k.
  induction olds as [|o olds IH]; intros news k Hk.
  - simpl in *. rewrite list_lookup_fmap, ?lookup_nil.
    destruct (lookup_lt_is_Some_2 news k Hk) as [n ->]. done.
  - destruct news as [|n news].
    + simpl in Hk. rewrite pad_zip_nil_r, list_lookup_fmap, ?lookup_nil.
      destruct (lookup_lt_is_Some_2 (o :: olds) k) as [o' ->]; [simpl; lia|].
      done.
    + destruct k as [|k]; simpl; [done|]. apply IH. simpl in Hk. lia.
Qed.

Lemma fold_left_snoc_each {B C} (f : B → C) (l : list B) (acc : list C) :
  fold_left (λ acc x, acc ++ [f x]) l acc = acc ++ (f <$> l).
Proof.
  revert acc. induction l as [|x l IH]; intros acc; simpl.
  - by rewrite app_nil_r.
  - by rewrite IH, <- app_assoc.
Qed.

Lemma diff_step_run lines_old lines_new diff op :
  diff_step lines_old lines_new diff op = diff ++ run_of lines_old lines_new op.
Proof.
  destruct op as [[[[tag i1] i2] j1] j2]. unfold diff_step, run_of, repeat_list.
  rewrite pad_amount, pad_amount', zip_padded.
  apply (fold_left_snoc_each
           (λ on : string * string, (on.1, on.2, status_of_tag tag))).
Qed.

Lemma diff_fold_runs lines_old lines_new ops : ∀ diff,
  fold_left (diff_step lines_old lines_new) ops diff
  = diff ++ concat (run_of lines_old lines_new <$> ops).
Proof.
  induction ops as [|op ops IH]; intros diff; simpl.
  - by rewrite app_nil_r.
  - by rewrite IH, diff_step_run, <- app_assoc.
Qed.

Lemma emit_runs lines_old lines_new ops :
  emit lines_old lines_new ops = concat (run_of lines_old lines_new <$> ops).
Proof. unfold emit. by rewrite diff_fold_runs. Qed.

Lemma emit_app lines_old lines_new ops1 ops2 :
  emit lines_old lines_new (ops1 ++ ops2)
  = emit lines_old lines_new ops1 ++ emit lines_old lines_new ops2.
Proof. by rewrite !emit_runs, fmap_app, concat_app. Qed.

Lemma chain_b_seqs {B} `{Countable B} (a b : list B) :
  seq_a (chain_b a b) = a ∧ seq_b (chain_b a b) = b ∧ bjunk (chain_b a b) = ∅.
Proof. unfold chain_b. by case_decide. Qed.

End AlignFacts.

(** ** [__chain_b]: what [b2j] holds *)

Module ChainFacts.
Import Py Difflib LoopLemmas.

Section Chain.
Context {A : Type} `{Countable A}.

(** The indices filed under [x] are the places of [x] in [b], in
    ascending order. *)
Definition places (b : list A) (x : A) (js : list Z) : Prop :=
  StronglySorted Z.lt js
  ∧ ∀ j, j ∈ js ↔ 0 ≤ j < len b ∧ b !! Z.to_nat j = Some x.

Lemma enumerate_snoc (b : list A) (y : A) :
  enumerate 0 (b ++ [y]) = enumerate 0 b ++ [(len b, y)].
Proof.
  unfold enumerate, len. rewrite length_app; simpl.
  replace (Z.of_nat (length b + 1)) with (Z.of_nat (length b) + 1) by lia.
  rewrite seqZ_app by lia.
  rewrite zip_with_app by (rewrite length_seqZ; lia). done.
Qed.

Lemma chain_index_snoc (b : list A) (y : A) :
  chain_index (b ++ [y]) = chain_step (chain_index b) (len b, y).
Proof. unfold chain_index. by rewrite enumerate_snoc, fold_left_app. Qed.

Lemma chain_index_places (b : list A) (x : A) :
  places b x (default [] (chain_index b !! x)).
Proof.
  induction b as [|y b IH] using rev_ind.
  - unfold chain_index; simpl. rewrite lookup_empty; simpl. split; [constructor|].
    intros j. rewrite elem_of_nil. unfold len; simpl. lia.
  - rewrite chain_index_snoc. unfold chain_step. destruct IH as [Hss Hmem].
    assert (len (b ++ [y]) = len b + 1) as Hlen.
    { unfold len. rewrite length_app; simpl. lia. }
    destruct (decide (y = x)) as [->|Hne].
    + rewrite lookup_insert_eq; simpl. split.
      * apply StronglySorted_app_2; [|done|by repeat constructor].
        intros j1 j2 Hj1%Hmem ->%list_elem_of_singleton. lia.
      * intros j. rewrite elem_of_app, Hmem, list_elem_of_singleton, Hlen.
        split.
        -- intros [[Hj Hx]| ->].
           ++ split; [lia|]. rewrite lookup_app_l; [done|]. unfold len in Hj. lia.
           ++ split; [unfold len; lia|]. unfold len. rewrite Nat2Z.id.
              by rewrite list_lookup_middle.
        -- intros [Hj Hx]. destruct (decide (j = len b)) as [->|Hjn]; [by right|].
           left. split; [lia|]. rewrite lookup_app_l in Hx; [done|].
           unfold len in *. lia.
    + rewrite lookup_insert_ne by done. split; [done|].
      intros j. rewrite Hmem, Hlen. split.
      * intros [Hj Hx]. split; [lia|]. rewrite lookup_app_l; [done|].
        unfold len in Hj. lia.
      * intros [Hj Hx]. destruct (decide (j = len b)) as [->|Hjn].
        -- unfold len in Hx. rewrite Nat2Z.id, list_lookup_middle in Hx by done.
           congruence.
        -- split; [lia|]. rewrite lookup_app_l in Hx; [done|].
           unfold len in *. lia.
Qed.

(** Popular elements leave [b2j]; what stays is as [chain_index] filed
    it. *)
Lemma chain_b_places (a b : list A) (x : A) (js : list Z) :
  b2j (chain_b a b) !! x = Some js → places b x js.
Proof.
  intros Hx. assert (chain_index b !! x = Some js) as Hci.
  { unfold chain_b in Hx. case_decide; simpl in Hx; [|done].
    by apply map_lookup_filter_Some in Hx as [? _]. }
  pose proof (chain_index_places b x) as Hp. by rewrite Hci in Hp.
Qed.

End Chain.
End ChainFacts.

(** ** [find_longest_match] on a sequence and itself *)

Module SameFacts.
Import Py Difflib LoopLemmas MatcherFacts ChainFacts AlignFacts.

Section Same.
Context {A : Type} `{Countable A}.
Variable a : list A.

Local Abbreviation m := (chain_b a a).
Local Abbreviation n := (len a).

(** [x] has stayed in [b2j]: it is not popular. *)
Definition kept (x : A) : bool := bool_decide (is_Some (b2j m !! x)).

(** The number of elements at the head of [l] that are kept. *)
Fixpoint kept_run (l : list A) : Z :=
  match l with
  | [] => 0
  | x :: l' => if kept x then 1 + kept_run l' else 0
  end.

(** [ending t]: the number of kept elements in a row that end at index
    [t] of [a].  On the diagonal this is what [j2len] holds. *)
Definition ending (t : Z) : Z := kept_run (rev (take (Z.to_nat (t + 1)) a)).

Lemma kept_run_nonneg l : 0 ≤ kept_run l.
Proof. induction l as [|x l IH]; simpl; [done|]. destruct (kept x); lia. Qed.

Lemma ending_nonneg t : 0 ≤ ending t.
Proof. apply kept_run_nonneg. Qed.

Lemma ending_before : ending (-1) = 0.
Proof. done. Qed.

Lemma ending_step t x :
  0 ≤ t → a !! Z.to_nat t = Some x →
  ending t = if kept x then 1 + ending (t - 1) else 0.
Proof.
  intros Ht Hx. unfold ending.
  replace (Z.to_nat (t + 1)) with (S (Z.to_nat t)) by lia.
  replace (Z.to_nat (t - 1 + 1)) with (Z.to_nat t) by lia.
  rewrite (take_S_r _ _ _ Hx), rev_app_distr. done.
Qed.

(** The state of the search before row [i]: the best match lies on the
    diagonal and is at least as long as every diagonal run so far; no
    entry of [j2len] exceeds the diagonal run of its row or of its
    column, and the diagonal entry is the run itself. *)
Definition diag_ok (i : Z) (st : gmap Z Z * Match) : Prop :=
  st.2.1.1 = st.2.1.2 ∧ 0 ≤ st.2.2
  ∧ (∀ t, 0 ≤ t < i → ending t ≤ st.2.2)
  ∧ (∀ j k, st.1 !! j = Some k → k ≤ ending (i - 1) ∧ k ≤ ending j)
  ∧ default 0 (st.1 !! (i - 1)) = ending (i - 1).

Lemma scan_row_diag i x j2len js : ∀ nj best,
  0 ≤ i < n → kept x = true → a !! Z.to_nat i = Some x →
  (∀ j k, j2len !! j = Some k → k ≤ ending (i - 1) ∧ k ≤ ending j) →
  default 0 (j2len !! (i - 1)) = ending (i - 1) →
  StronglySorted Z.lt js →
  (∀ j, j ∈ js → 0 ≤ j < n ∧ a !! Z.to_nat j = Some x) →
  best.1.1 = best.1.2 → 0 ≤ best.2 →
  (∀ t, 0 ≤ t < i → ending t ≤ best.2) →
  (∀ j k, nj !! j = Some k → k ≤ ending i ∧ k ≤ ending j) →
  (i ∈ js ∨ (default 0 (nj !! i) = ending i ∧ ending i ≤ best.2)) →
  diag_ok (i + 1) (scan_row i 0 n j2len js nj best).
Proof.
  induction js as [|j js IH];
    intros nj best Hi Hx Hai Hrow Hdiag Hss Hjs Hbest Hsize Hbefore Hnj Hhere.
  - destruct Hhere as [Hin|[Hi1 Hi2]]; [by apply elem_of_nil in Hin|].
    unfold diag_ok; simpl. replace (i + 1 - 1) with i by lia.
    split_and!; try done.
    intros t Ht. destruct (decide (t = i)) as [->|]; [done|]. apply Hbefore. lia.
  - simpl. destruct (Hjs j ltac:(by left)) as [Hj Haj].
    rewrite decide_False by lia. rewrite decide_False by lia.
    apply StronglySorted_cons in Hss as [Hlt Hss].
    rewrite Forall_forall in Hlt.
    set (k0 := default 0 (j2len !! (j - 1))).
    assert (k0 ≤ ending (i - 1) ∧ k0 ≤ ending (j - 1)) as [Hk1 Hk2].
    { unfold k0. destruct (j2len !! (j - 1)) as [k|] eqn:Hk; simpl.
      - by apply Hrow.
      - pose proof (ending_nonneg (i - 1)). pose proof (ending_nonneg (j - 1)).
        lia. }
    pose proof (ending_step i x ltac:(lia) Hai) as Hei. rewrite Hx in Hei.
    pose proof (ending_step j x ltac:(lia) Haj) as Hej. rewrite Hx in Hej.
    assert (best.2 < k0 + 1 → j = i) as Hupd.
    { intros Hlong. destruct (decide (j = i)) as [|Hne]; [done|exfalso].
      destruct (decide (j < i)).
      - pose proof (Hbefore j ltac:(lia)). lia.
      - destruct Hhere as [[->|Hin]%elem_of_cons|[_ ?]]; [done| |lia].
        specialize (Hlt _ Hin). lia. }
    assert (j = i → k0 + 1 = ending i) as Hon.
    { intros ->. unfold k0. rewrite Hdiag. lia. }
    apply IH; try done.
    + intros j' Hj'. apply Hjs. by right.
    + case_decide as Hlong; [|done]. simpl. specialize (Hupd Hlong). lia.
    + case_decide; simpl; lia.
    + intros t Ht. specialize (Hbefore t Ht). case_decide; simpl; lia.
    + intros j' k'. rewrite lookup_insert. case_decide as Hjj.
      * intros [= <-]. subst j'. lia.
      * apply Hnj.
    + destruct (decide (j = i)) as [Hji|Hne].
      * right. specialize (Hon Hji).
        assert (<[j:=k0 + 1]> nj !! i = Some (k0 + 1)) as ->
          by (rewrite <- Hji; apply lookup_insert_eq).
        simpl. split; [done|]. case_decide; simpl; lia.
      * destruct Hhere as [[->|Hin]%elem_of_cons|[Hd Hle]]; [done|by left|].
        right. rewrite lookup_insert_ne by done. split; [done|].
        case_decide; simpl; lia.
Qed.

Lemma rows_diag :
  diag_ok n (fold_left (row_step m 0 n) (range 0 n) (∅, (0, 0, 0))).
Proof.
  destruct (chain_b_seqs a a) as (Ha&_&_).
  apply (fold_left_range diag_ok (row_step m 0 n) 0 n); [unfold len; lia| |].
  - unfold diag_ok; simpl. split_and!; try done. lia.
  - intros i [j2len best] Hi (Hbest&Hsize&Hbefore&Hrow&Hdiag); simpl in *.
    unfold row_step; simpl. rewrite Ha, getitem_lookup by lia.
    destruct (lookup_lt_is_Some_2 a (Z.to_nat i)) as [x Hx]; [unfold len in Hi; lia|].
    rewrite Hx. destruct (b2j m !! x) as [js|] eqn:Hjs; simpl.
    + destruct (chain_b_places a a x js Hjs) as [Hss Hmem].
      apply (scan_row_diag i x); try done.
      * unfold kept. rewrite Hjs. by apply bool_decide_eq_true_2.
      * intros j Hj. by apply Hmem.
      * left. apply Hmem. done.
    + assert (kept x = false) as Hk.
      { unfold kept. rewrite Hjs. apply bool_decide_eq_false_2. by intros [??]. }
      pose proof (ending_step i x ltac:(lia) Hx) as Hei. rewrite Hk in Hei.
      unfold diag_ok; simpl. replace (i + 1 - 1) with i by lia.
      split_and!; try done.
      intros t Ht. destruct (decide (t = i)) as [->|]; [lia|]. apply Hbefore. lia.
Qed.

(** On the diagonal both extension loops over elements that are not junk
    run to the ends of the sequence. *)
Lemma left_cond_diag s size :
  0 < s ≤ n → left_cond m false 0 0 (s, s, size) = true.
Proof.
  intros Hs. destruct (chain_b_seqs a a) as (Ha&Hb&Hjunk).
  unfold left_cond, isbjunk. rewrite Ha, Hb, Hjunk, !getitem_lookup by lia.
  destruct (lookup_lt_is_Some_2 a (Z.to_nat (s - 1))) as [x ->];
    [unfold len in Hs; lia|].
  rewrite (bool_decide_eq_true_2 (0 < s)) by lia.
  rewrite (bool_decide_eq_false_2 (x ∈ (∅ : gset A))) by set_solver.
  simpl. by apply bool_decide_eq_true_2.
Qed.

Lemma right_cond_diag size :
  0 ≤ size < n → right_cond m false n n (0, 0, size) = true.
Proof.
  intros Hs. destruct (chain_b_seqs a a) as (Ha&Hb&Hjunk).
  unfold right_cond, isbjunk. rewrite Ha, Hb, Hjunk, !getitem_lookup by lia.
  destruct (lookup_lt_is_Some_2 a (Z.to_nat (0 + size))) as [x ->];
    [unfold len in Hs; lia|].
  rewrite (bool_decide_eq_true_2 (0 + size < n)) by lia.
  rewrite (bool_decide_eq_false_2 (x ∈ (∅ : gset A))) by set_solver.
  simpl. by apply bool_decide_eq_true_2.
Qed.

Lemma extend_left_diag s size :
  0 ≤ s ≤ n → extend_left m false 0 0 (s, s, size) = (0, 0, size + s).
Proof.
  intros Hs. unfold extend_left; cbn [fst snd]. rewrite Z.sub_0_r.
  remember (Z.to_nat s) as fuel eqn:Hfuel.
  revert s size Hs Hfuel. induction fuel as [|fuel IH]; intros s size Hs Hfuel.
  - assert (s = 0) as -> by lia. cbn [while]. by rewrite Z.add_0_r.
  - cbn [while]. rewrite left_cond_diag by lia.
    change (left_body (s, s, size)) with (s - 1, s - 1, size + 1).
    rewrite (IH (s - 1) (size + 1)) by lia. f_equal. lia.
Qed.

Lemma extend_right_diag size :
  0 ≤ size ≤ n → extend_right m false n n (0, 0, size) = (0, 0, n).
Proof.
  intros Hs. unfold extend_right; cbn [fst snd]. rewrite Z.add_0_l.
  remember (Z.to_nat (n - size)) as fuel eqn:Hfuel.
  revert size Hs Hfuel. induction fuel as [|fuel IH]; intros size Hs Hfuel.
  - assert (size = n) as -> by lia. done.
  - cbn [while]. rewrite right_cond_diag by lia.
    change (right_body (0, 0, size)) with (0, 0, size + 1).
    by rewrite (IH (size + 1)) by lia.
Qed.

(** The longest match of a sequence with itself is the whole sequence. *)
Lemma find_longest_match_same : find_longest_match m 0 n 0 n = (0, 0, n).
Proof.
  unfold find_longest_match.
  pose proof rows_diag as (Hdiag&_).
  pose proof (rows_inside m 0 n 0 n ltac:(unfold len; lia) ltac:(unfold len; lia))
    as Hin.
  destruct (fold_left _ _ _) as [j2len [[s s'] size]]; simpl in *.
  unfold inside in Hin; simpl in Hin. subst s'.
  rewrite extend_left_diag by lia. rewrite extend_right_diag by lia.
  unfold extend_left, extend_right; simpl.
  by rewrite Z.sub_diag.
Qed.

Lemma found_same :
  BlockFacts.found m = ([], if decide (n = 0) then [] else [(0, 0, n)]).
Proof.
  destruct (chain_b_seqs a a) as (Ha&Hb&_).
  unfold BlockFacts.found. rewrite Ha, Hb.
  destruct (Z.to_nat (2 * n + 1)) as [|fuel] eqn:Hfuel; [unfold len in *; lia|].
  simpl. unfold queue_body at 2; simpl. rewrite find_longest_match_same.
  repeat case_decide; try lia; by apply while_false.
Qed.

Lemma get_opcodes_same :
  get_opcodes m = if decide (n = 0) then [] else [(Equal, 0, n, 0, n)].
Proof.
  destruct (chain_b_seqs a a) as (Ha&Hb&_).
  unfold get_opcodes. rewrite OpcodeFacts.get_matching_blocks_eq, found_same.
  rewrite Ha, Hb. cbn [snd].
  destruct (decide (n = 0)) as [Hn|Hn].
  - simpl. repeat (case_decide; simpl); try lia; done.
  - assert (merge_sort Match_le [(0, 0, n)] = [(0, 0, n)]) as -> by done.
    simpl. repeat (case_decide; simpl); try lia; done.
Qed.

End Same.
End SameFacts.

(** ** [find_longest_match] returns blocks that really match *)

Module MatchFacts.
Import Py Difflib LoopLemmas MatcherFacts BlockFacts OpcodeFacts.

Section Sound.
Context {A : Type} `{Countable A}.
Variable m : matcher (A := A).

Local Abbreviation la := (len (seq_a m)).
Local Abbreviation lb := (len (seq_b m)).

(** The indices [b2j] files under [x] are places of [x] in [b]. *)
Definition b2j_sound : Prop :=
  ∀ x js j, b2j m !! x = Some js → j ∈ js →
            0 ≤ j ∧ seq_b m !! Z.to_nat j = Some x.

(** [a[i:i+k]] and [b[j:j+k]] hold the same elements. *)
Definition agree (x : Match) : Prop :=
  ∀ t, 0 ≤ t < x.2 →
    ∃ e, seq_a m !! Z.to_nat (x.1.1 + t) = Some e
         ∧ seq_b m !! Z.to_nat (x.1.2 + t) = Some e.

(** Every entry of [j2len] before row [i] is the length of a match that
    ends in row [i - 1]. *)
Definition row_agree (i : Z) (j2len : gmap Z Z) : Prop :=
  ∀ j k, j2len !! j = Some k → agree (i - k, j - k + 1, k).

Lemma agree_snoc i j k :
  0 ≤ k → agree (i, j, k) →
  (∃ e, seq_a m !! Z.to_nat (i + k) = Some e
        ∧ seq_b m !! Z.to_nat (j + k) = Some e) →
  agree (i, j, k + 1).
Proof.
  intros Hk Hx He t Ht; simpl in *.
  destruct (decide (t = k)) as [->|]; [done|]. apply Hx; simpl. lia.
Qed.

Lemma agree_cons i j k :
  agree (i, j, k) →
  (∃ e, seq_a m !! Z.to_nat (i - 1) = Some e
        ∧ seq_b m !! Z.to_nat (j - 1) = Some e) →
  agree (i - 1, j - 1, k + 1).
Proof.
  intros Hx He t Ht; simpl in *.
  destruct (decide (t = 0)) as [->|]; [by rewrite !Z.add_0_r|].
  replace (i - 1 + t) with (i + (t - 1)) by lia.
  replace (j - 1 + t) with (j + (t - 1)) by lia.
  apply Hx; simpl. lia.
Qed.

Lemma same_true (x y : option A) :
  same x y = true → ∃ e, x = Some e ∧ y = Some e.
Proof.
  destruct x as [u|], y as [v|]; simpl; try done.
  intros ->%bool_decide_eq_true. eauto.
Qed.

Lemma scan_row_agree alo blo bhi i j2len js : ∀ newj2len best,
  0 ≤ alo ≤ i → 0 ≤ blo →
  row_ok alo blo bhi i j2len → row_agree i j2len →
  (∀ j, j ∈ js → 0 ≤ j ∧ ∃ e, seq_a m !! Z.to_nat i = Some e
                                ∧ seq_b m !! Z.to_nat j = Some e) →
  row_agree (i + 1) newj2len → agree best →
  row_agree (i + 1) (scan_row i blo bhi j2len js newj2len best).1
  ∧ agree (scan_row i blo bhi j2len js newj2len best).2.
Proof.
  induction js as [|j js IH]; intros newj2len best Hi Hb Hrow Hagree Hjs Hnew Hbest;
    simpl; [done|].
  destruct (decide (j < blo)).
  { apply IH; try done. intros j' Hj'. apply Hjs. by right. }
  destruct (decide (bhi ≤ j)); [done|].
  destruct (Hjs j ltac:(by left)) as [Hj He].
  set (k0 := default 0 (j2len !! (j - 1))).
  assert (0 ≤ k0 ∧ k0 ≤ i - alo ∧ k0 ≤ j - blo ∧ agree (i - k0, j - k0, k0))
    as (Hk0&Hki&Hkj&Hblock).
  { unfold k0. destruct (j2len !! (j - 1)) as [k|] eqn:Hk; simpl.
    - destruct (Hrow _ _ Hk) as (?&?&?&?). split_and!; try lia.
      specialize (Hagree _ _ Hk).
      by replace (j - 1 - k + 1) with (j - k) in Hagree by lia.
    - split_and!; try lia. intros t Ht; simpl in *. lia. }
  assert (agree (i - (k0 + 1) + 1, j - (k0 + 1) + 1, k0 + 1)) as Hnewblock.
  { replace (i - (k0 + 1) + 1) with (i - k0) by lia.
    replace (j - (k0 + 1) + 1) with (j - k0) by lia.
    apply agree_snoc; [done|done|].
    replace (i - k0 + k0) with i by lia. by replace (j - k0 + k0) with j by lia. }
  apply IH; try done.
  - intros j' Hj'. apply Hjs. by right.
  - intros j' k'. rewrite lookup_insert. case_decide as Hjj; [|apply Hnew].
    intros [= <-]. subst j'.
    by replace (i + 1 - (k0 + 1)) with (i - (k0 + 1) + 1) by lia.
  - by case_decide.
Qed.

Lemma rows_agree alo ahi blo bhi :
  b2j_sound → 0 ≤ alo ≤ ahi → 0 ≤ blo ≤ bhi →
  agree (fold_left (row_step m blo bhi) (range alo ahi) (∅, (alo, blo, 0))).2.
Proof.
  intros Hsound Ha Hb.
  apply (fold_left_range
           (λ i st, row_ok alo blo bhi i st.1 ∧ inside alo i blo bhi st.2
                    ∧ row_agree i st.1 ∧ agree st.2)
           (row_step m blo bhi) alo ahi); [lia| |].
  - simpl. split_and!.
    + intros j k. by rewrite lookup_empty.
    + unfold inside; simpl; lia.
    + intros j k. by rewrite lookup_empty.
    + intros t Ht; simpl in *. lia.
  - intros i [j2len best] Hi (Hrow&Hin&Hagree&Hbest); simpl in *.
    unfold row_step; simpl.
    set (js := match getitem (seq_a m) i with
               | Some x => default [] (b2j m !! x)
               | None => []
               end).
    destruct (scan_row_inside alo blo bhi i j2len js ∅ best) as [Hr Hi'];
      [lia|done| |unfold inside in *; lia|].
    { intros j k. by rewrite lookup_empty. }
    destruct (scan_row_agree alo blo bhi i j2len js ∅ best) as [Hr' Hb'];
      try done; [lia|lia|].
    intros j Hj. unfold js in Hj. rewrite getitem_lookup in Hj by lia.
    destruct (seq_a m !! Z.to_nat i) as [x|] eqn:Hx;
      [|by apply elem_of_nil in Hj].
    destruct (b2j m !! x) as [js'|] eqn:Hjs; simpl in Hj;
      [|by apply elem_of_nil in Hj].
    destruct (Hsound _ _ _ Hjs Hj) as [? ?]. eauto.
Qed.

(** What the extension loops keep: the block agrees and starts at
    indices that are not negative. *)
Definition grown (x : Match) : Prop :=
  agree x ∧ 0 ≤ x.1.1 ∧ 0 ≤ x.1.2 ∧ 0 ≤ x.2.

Lemma extend_left_grown junk alo blo x :
  0 ≤ alo → 0 ≤ blo → grown x → grown (extend_left m junk alo blo x).
Proof.
  intros Ha Hb Hx. unfold extend_left. apply while_inv; [done|].
  intros [[i j] k] (Hs&?&?&?) Hc. unfold left_cond in Hc. simpl in *.
  repeat (apply andb_prop in Hc as [Hc ?]).
  apply bool_decide_eq_true in Hc.
  match goal with Hj : bool_decide (blo < j) = true |- _ =>
    apply bool_decide_eq_true in Hj end.
  match goal with Hsame : same _ _ = true |- _ =>
    apply same_true in Hsame as (e&Hea&Heb) end.
  rewrite getitem_lookup in Hea, Heb by lia.
  split_and!; simpl; try lia. apply agree_cons; eauto.
Qed.

Lemma extend_right_grown junk ahi bhi x :
  grown x → grown (extend_right m junk ahi bhi x).
Proof.
  intros Hx. unfold extend_right. apply while_inv; [done|].
  intros [[i j] k] (Hs&?&?&?) Hc. unfold right_cond in Hc. simpl in *.
  repeat (apply andb_prop in Hc as [Hc ?]).
  match goal with Hsame : same _ _ = true |- _ =>
    apply same_true in Hsame as (e&Hea&Heb) end.
  rewrite getitem_lookup in Hea, Heb by lia.
  split_and!; simpl; try lia. apply agree_snoc; eauto.
Qed.

Lemma find_longest_match_agree alo ahi blo bhi :
  b2j_sound → 0 ≤ alo ≤ ahi → 0 ≤ blo ≤ bhi →
  agree (find_longest_match m alo ahi blo bhi).
Proof.
  intros Hsound Ha Hb. unfold find_longest_match.
  apply extend_right_grown, extend_left_grown, extend_right_grown,
    extend_left_grown; try lia.
  pose proof (rows_agree alo ahi blo bhi Hsound Ha Hb) as Hag.
  pose proof (rows_inside m alo ahi blo bhi ltac:(lia) ltac:(lia)) as Hin.
  unfold inside in Hin. split_and!; [done|lia..].
Qed.

Lemma queue_body_agree st :
  b2j_sound → queue_ok m st → Forall agree st.2 →
  Forall agree (queue_body m st).2.
Proof.
  intros Hsound (_&Hq&_) Hag.
  destruct st as [[|[[[alo ahi] blo] bhi] queue] blocks]; [done|].
  apply Forall_cons in Hq as [Hr _]. unfold proper in Hr.
  pose proof (find_longest_match_agree alo ahi blo bhi Hsound
                ltac:(lia) ltac:(lia)) as Hx.
  unfold queue_body; simpl in *.
  destruct (find_longest_match m alo ahi blo bhi) as [[i j] k].
  case_decide; simpl; [|done]. apply Forall_app; split; [done|].
  by apply Forall_cons.
Qed.

Lemma found_agree : b2j_sound → Forall agree (found m).2.
Proof.
  intros Hsound.
  assert (queue_ok m (found m) ∧ Forall agree (found m).2) as [_ ?]; [|done].
  unfold found. apply (while_inv (λ st, queue_ok m st ∧ Forall agree st.2)).
  - split; [apply queue_start|done].
  - intros st [Hok Hag] Hc. split; [by apply queue_step|].
    by apply queue_body_agree.
Qed.

Lemma collapse_agree rest : ∀ cur acc,
  Forall agree (acc ++ cur :: rest) →
  Forall agree (flush (fold_left collapse_step rest (cur, acc))).
Proof.
  induction rest as [|[[i2 j2] k2] rest IH]; intros [[i1 j1] k1] acc Hag; simpl.
  - case_decide; [done|]. apply Forall_app in Hag as [? _]. done.
  - rewrite Forall_app, !Forall_cons in Hag. destruct Hag as (Hacc&Hcur&Hx&Hrest).
    case_decide as Hadj.
    + apply IH. rewrite Forall_app, Forall_cons. split_and!; try done.
      destruct Hadj as [<- <-]. intros t Ht; simpl in *.
      destruct (decide (t < k1)).
      * apply Hcur; simpl. lia.
      * replace (i1 + t) with (i1 + k1 + (t - k1)) by lia.
        replace (j1 + t) with (j1 + k1 + (t - k1)) by lia.
        apply Hx; simpl. lia.
    + case_decide.
      * apply IH. rewrite <- app_assoc; simpl.
        rewrite Forall_app, !Forall_cons. done.
      * apply IH. rewrite Forall_app, Forall_cons. done.
Qed.

(** Every matching block names equal stretches of [a] and [b]. *)
Lemma matching_blocks_agree : b2j_sound → Forall agree (get_matching_blocks m).
Proof.
  intros Hsound. rewrite get_matching_blocks_eq.
  apply Forall_app; split.
  - apply collapse_agree; simpl. apply Forall_cons; split.
    + intros t Ht; simpl in *. lia.
    + rewrite merge_sort_Permutation. by apply found_agree.
  - apply Forall_cons; split; [|done]. intros t Ht; simpl in *. lia.
Qed.

Lemma agree_slices i j k :
  inside 0 la 0 lb (i, j, k) → agree (i, j, k) →
  slice (seq_a m) i (i + k) = slice (seq_b m) j (j + k).
Proof.
  unfold inside; simpl. intros (?&?&?&?&?) Hag.
  rewrite !slice_take_drop by lia.
  replace (i + k - i) with k by lia. replace (j + k - j) with k by lia.
  apply list_eq. intros t.
  destruct (decide (t < Z.to_nat k)%nat) as [Ht|Ht].
  - rewrite !lookup_take_lt, !lookup_drop by done.
    destruct (Hag (Z.of_nat t) ltac:(simpl; lia)) as (e&Ha&Hb); simpl in *.
    replace (Z.to_nat i + t)%nat with (Z.to_nat (i + Z.of_nat t)) by lia.
    replace (Z.to_nat j + t)%nat with (Z.to_nat (j + Z.of_nat t)) by lia.
    by rewrite Ha, Hb.
  - rewrite !lookup_take_ge by lia. done.
Qed.

(** An opcode tagged [equal] names equal stretches. *)
Definition equal_ok (op : opcode) : Prop :=
  let '(t, i1, i2, j1, j2) := op in
  t = Equal → slice (seq_a m) i1 i2 = slice (seq_b m) j1 j2.

Lemma opcode_fold_equal blocks : ∀ st,
  Forall agree blocks → Forall (inside 0 la 0 lb) blocks →
  Forall equal_ok st.2 →
  Forall equal_ok (fold_left opcode_step blocks st).2.
Proof.
  induction blocks as [|[[ai bj] size] blocks IH];
    intros [[i j] answer] Hag Hin Hans; simpl in *; [done|].
  apply Forall_cons in Hag as [Hx Hag]. apply Forall_cons in Hin as [Hi Hin].
  apply IH; try done. simpl.
  assert (Forall equal_ok
            match (if decide (i < ai ∧ j < bj) then Some Replace
                   else if decide (i < ai) then Some Delete
                   else if decide (j < bj) then Some Insert else None) with
            | Some t => answer ++ [(t, i, ai, j, bj)]
            | None => answer
            end) as Hans'.
  { repeat case_decide; try done;
      (apply Forall_app; split; [done|]); by apply Forall_cons. }
  destruct (decide (size ≠ 0)); [|done]. apply Forall_app; split; [done|].
  apply Forall_cons; split; [|done]. intros _. by apply agree_slices.
Qed.

Lemma get_opcodes_equal : b2j_sound → Forall equal_ok (get_opcodes m).
Proof.
  intros Hsound. unfold get_opcodes. apply opcode_fold_equal; [|..|done].
  - by apply matching_blocks_agree.
  - apply matching_blocks_chain.
Qed.

End Sound.
End MatchFacts.

(** ** [list_files]: where the listed paths lie *)

Module ListingFacts.
Import Py App StrFacts IndexFacts.
Local Open Scope string_scope.

(** No entry of the tree has a name that begins with a slash. *)
Fixpoint well_named (n : node) : bool :=
  match n with
  | Dir (Some entries) =>
      forallb (λ ne : string * node,
                 negb (startswith ne.1 "/") && well_named ne.2) entries
  | _ => true
  end.

(** Induction on a tree, with the property at hand for every entry of a
    directory. *)
Definition node_induction (P : node → Prop)
    (HFile : P File) (HNoMode : P NoMode) (HFail : P (Dir None))
    (HDir : ∀ entries, Forall (λ ne : string * node, P ne.2) entries →
                       P (Dir (Some entries))) : ∀ n, P n :=
  fix go (n : node) : P n :=
    match n with
    | File => HFile
    | NoMode => HNoMode
    | Dir None => HFail
    | Dir (Some entries) =>
        HDir entries
          ((fix all (es : list (string * node))
              : Forall (λ ne : string * node, P ne.2) es :=
              match es with
              | [] => @List.Forall_nil _ (λ ne : string * node, P ne.2)
              | (name, e) :: es' =>
                  @List.Forall_cons _ (λ ne : string * node, P ne.2)
                    (name, e) es' (go e) (all es')
              end) entries)
    end.

(** The last character of [s] is a slash. *)
Fixpoint last_slash (s : string) : bool :=
  match s with
  | EmptyString => false
  | String c EmptyString => bool_decide (c = "/"%char)
  | String _ s' => last_slash s'
  end.

Lemma str_app_nil_r s : (s ++ "")%string = s.
Proof. induction s as [|c s IH]; [done|]. by rewrite app_cons, IH. Qed.

Lemma str_app_assoc s1 s2 s3 : ((s1 ++ s2) ++ s3 = s1 ++ s2 ++ s3)%string.
Proof. induction s1 as [|c s1 IH]; [done|]. by rewrite !app_cons, IH. Qed.

Lemma startswith_app_l s t p :
  startswith s p = true → startswith (s ++ t) p = true.
Proof.
  revert s. induction p as [|c p IH]; intros s; [done|].
  destruct s as [|d s]; [done|]. rewrite app_cons. simpl.
  intros [-> Hp]%andb_prop. by rewrite IH.
Qed.

Lemma startswith_first c s t :
  startswith (String c s ++ t) "/" = startswith (String c s) "/".
Proof. rewrite app_cons. simpl. by rewrite !andb_true_r. Qed.

Lemma rev_app_starts s acc :
  startswith (String.rev_app s acc) "/"
  = match s with
    | EmptyString => startswith acc "/"
    | _ => last_slash s
    end.
Proof.
  revert acc. induction s as [|c s IH]; intros acc; [done|].
  simpl String.rev_app. rewrite IH. destruct s; [|done].
  simpl. rewrite andb_true_r. apply bool_decide_ext. naive_solver.
Qed.

Lemma rev_starts s : startswith (String.rev s) "/" = last_slash s.
Proof. unfold String.rev. rewrite rev_app_starts. by destruct s. Qed.

Lemma rstrip_last s : last_slash (rstrip_slash s) = false.
Proof.
  induction s as [|c s IH]; [done|]. simpl.
  destruct (rstrip_slash s) as [|d r] eqn:Hr.
  - case_bool_decide; [done|]. simpl. by apply bool_decide_eq_false_2.
  - done.
Qed.

Lemma rstrip_first s :
  startswith s "/" = false → startswith (rstrip_slash s) "/" = false.
Proof.
  destruct s as [|c s]; [done|]. simpl. intros Hc.
  destruct (decide (c = "/"%char)) as [->|Hne].
  { by rewrite bool_decide_eq_true_2 in Hc. }
  rewrite (bool_decide_eq_false_2 (c = "/"%char)) by done.
  by destruct (rstrip_slash s).
Qed.

Lemma rstrip_app q s :
  q ≠ "" → last_slash q = false →
  rstrip_slash (q ++ s) = (q ++ rstrip_slash s)%string.
Proof.
  induction q as [|c q IH]; [done|]. intros _ Hlast.
  rewrite !app_cons. simpl. destruct q as [|d q].
  - simpl in Hlast. apply bool_decide_eq_false in Hlast.
    rewrite !app_nil. destruct (rstrip_slash s); [|done].
    by rewrite bool_decide_eq_false_2.
  - rewrite IH by done. by rewrite app_cons.
Qed.

Lemma rstrip_slash_name name :
  rstrip_slash ("/" ++ name) = ""
  ∨ startswith (rstrip_slash ("/" ++ name)) "/" = true.
Proof.
  rewrite app_cons, app_nil. simpl. destruct (rstrip_slash name); auto.
Qed.

Lemma join_plain q name :
  q ≠ "" → last_slash q = false → startswith name "/" = false →
  posixpath_join q name = (q ++ "/" ++ name)%string.
Proof.
  intros Hq Hlast Hname. unfold posixpath_join.
  rewrite Hname, rev_starts, Hlast. by rewrite bool_decide_eq_false_2.
Qed.

Lemma join_first q name :
  startswith q "/" = false → startswith name "/" = false →
  startswith (posixpath_join q name) "/" = false.
Proof.
  intros Hq Hname. unfold posixpath_join. rewrite Hname.
  destruct q as [|c q]; [done|].
  rewrite bool_decide_eq_false_2 by done. rewrite orb_false_l.
  destruct (startswith (String.rev (String c q)) "/");
    by rewrite startswith_first.
Qed.

(** Where a path [q] met during the walk lies with respect to the
    folder [p] the walk began at. *)
Definition below (p q : string) : Prop :=
  q ≠ "" ∧ last_slash q = false ∧ (q = p ∨ startswith q (p ++ "/") = true).

Lemma below_child p q name :
  below p q → startswith name "/" = false →
  startswith (posixpath_join q name) (p ++ "/") = true
  ∧ below p (rstrip_slash (posixpath_join q name)).
Proof.
  intros (Hq&Hlast&Hp) Hname. rewrite join_plain by done.
  assert (startswith (q ++ "/" ++ name) (p ++ "/") = true) as Hfull.
  { destruct Hp as [->|Hp].
    - rewrite <- str_app_assoc. apply startswith_app.
    - by apply startswith_app_l. }
  split; [done|]. rewrite rstrip_app by done. split_and!.
  - by destruct q.
  - rewrite <- (rstrip_app q) by done. apply rstrip_last.
  - destruct (rstrip_slash_name name) as [->|Hs].
    + rewrite str_app_nil_r. done.
    + right. destruct Hp as [->|Hp]; [|by apply startswith_app_l].
      destruct (rstrip_slash ("/" ++ name)) as [|c r]; [done|].
      simpl in Hs. rewrite andb_true_r in Hs.
      apply bool_decide_eq_true in Hs as <-.
      change (String "/" r) with ("/" ++ r)%string.
      rewrite <- str_app_assoc. apply startswith_app.
Qed.

(** The loop of [list_files] over the entries of one directory, with
    the files gathered so far. *)
Fixpoint walk (path : string) (es : list (string * node)) (files : list string)
    : list string :=
  match es with
  | [] => files
  | (filename, e) :: es' =>
      let full := posixpath_join path filename in
      match e with
      | NoMode => files
      | Dir _ => walk path es' (files ++ list_tree e (rstrip_slash full))
      | File => walk path es' (files ++ [full])
      end
  end.

Lemma list_tree_walk es q : list_tree (Dir (Some es)) q = walk q es [].
Proof.
  simpl. generalize (@nil string) at 2 3 as files.
  induction es as [|[name e] es IH]; intros files; simpl; [done|].
  destruct e; by rewrite ?IH.
Qed.

Lemma walk_all (Q : string → Prop) q es : ∀ files,
  (∀ f, f ∈ files → Q f) →
  Forall (λ ne : string * node,
            Q (posixpath_join q ne.1)
            ∧ ∀ f, f ∈ list_tree ne.2 (rstrip_slash (posixpath_join q ne.1)) → Q f)
         es →
  ∀ f, f ∈ walk q es files → Q f.
Proof.
  induction es as [|[name e] es IH]; intros files Hacc Hes f Hf; simpl in Hf;
    [by apply Hacc|].
  apply Forall_cons in Hes as [[Hfull Hsub] Hes]. simpl in *.
  destruct e as [| |d].
  - revert Hf. apply IH; [|done].
    intros f' [Hf'| ->%list_elem_of_singleton]%elem_of_app; [by apply Hacc|done].
  - by apply Hacc.
  - revert Hf. apply IH; [|done].
    intros f' [Hf'|Hf']%elem_of_app; [by apply Hacc|by apply Hsub].
Qed.

(** Every path the walk lists lies under the folder it began at. *)
Lemma list_tree_below p n : ∀ q,
  well_named n = true → below p q →
  ∀ f, f ∈ list_tree n q → startswith f (p ++ "/") = true.
Proof.
  induction n as [| | |entries IH] using node_induction;
    intros q Hwn Hq f Hf; try by apply elem_of_nil in Hf.
  rewrite list_tree_walk in Hf. revert f Hf.
  apply walk_all; [intros f Hf; by apply elem_of_nil in Hf|].
  cbn [well_named] in Hwn. rewrite forallb_forall in Hwn.
  rewrite Forall_forall in IH. apply Forall_forall. intros [name e] Hne.
  specialize (Hwn _ (proj1 (list_elem_of_In _ _) Hne)). simpl in Hwn.
  apply andb_prop in Hwn as [Hname Hwe]. apply negb_true_iff in Hname.
  destruct (below_child p q name Hq Hname) as [Hfull Hbelow].
  split; [done|]. simpl. by apply (IH _ Hne).
Qed.

(** Every path the walk lists begins as the folder does: without a
    slash when the folder has none in front. *)
Lemma list_tree_relative n : ∀ q,
  well_named n = true → startswith q "/" = false →
  ∀ f, f ∈ list_tree n q → startswith f "/" = false.
Proof.
  induction n as [| | |entries IH] using node_induction;
    intros q Hwn Hq f Hf; try by apply elem_of_nil in Hf.
  rewrite list_tree_walk in Hf. revert f Hf.
  apply walk_all; [intros f Hf; by apply elem_of_nil in Hf|].
  cbn [well_named] in Hwn. rewrite forallb_forall in Hwn.
  rewrite Forall_forall in IH. apply Forall_forall. intros [name e] Hne.
  specialize (Hwn _ (proj1 (list_elem_of_In _ _) Hne)). simpl in Hwn.
  apply andb_prop in Hwn as [Hname Hwe]. apply negb_true_iff in Hname.
  pose proof (join_first q name Hq Hname) as Hfull.
  split; [done|]. simpl. apply (IH _ Hne); [done|]. by apply rstrip_first.
Qed.

(** An entry without a mode ends the walk of its directory. *)
Lemma walk_cut q es1 name es2 : ∀ files,
  walk q (es1 ++ (name, NoMode) :: es2) files = walk q es1 files.
Proof.
  induction es1 as [|[name1 e] es1 IH]; intros files; simpl; [done|].
  destruct e; by rewrite ?IH.
Qed.

End ListingFacts.

(** * What the specification states *)

(** ** The index built by [rel_map] *)

Module IndexSpec.
Import Py App StrFacts IndexFacts.
Local Open Scope string_scope.

(** C4, as stated, fails when the root is written with a trailing
    separator: ["/a/x"] does not start with ["/a/" + "/"], and yet it is
    not dropped. *)
Lemma rel_map_trailing_separator_counterexample :
  "/a/x" ∈ ["/a/x"]
  ∧ startswith "/a/x" ("/a/" ++ "/") = false
  ∧ rel_map ["/a/x"] "/a/" !! "x" = Some "/a/x".
Proof. split_and!; [by left|done|by vm_compute]. Qed.

(** C4 (amended): with [r] the root after [rstrip("/")], the index maps
    every listed path that starts with [r + "/"] to itself under the key
    left after that prefix; a path that does not start with [r + "/"] is
    the value of no key; and the index holds nothing else. *)
Theorem rel_map_index (files : list string) (root : string) :
  let r := rstrip_slash root in
  (∀ f, f ∈ files → startswith f (r ++ "/") = true →
        rel_map files root !! str_from (String.length r + 1) f = Some f)
  ∧ (∀ f k, startswith f (r ++ "/") = false → rel_map files root !! k ≠ Some f)
  ∧ (∀ k f, rel_map files root !! k = Some f →
            f ∈ files ∧ f = (r ++ "/" ++ k)%string).
Proof.
  split_and!.
  - intros f Hin Hf. by apply rel_map_lookup.
  - intros f k Hf (_&Hf'&_)%rel_map_lookup. unfold prefix_of_root in Hf'. congruence.
  - intros k f (Hin&Hf&->)%rel_map_lookup. split; [done|].
    apply under_split in Hf. unfold prefix_of_root in Hf.
    by rewrite app_assoc_slash in Hf.
Qed.

Lemma rel_map_index_witness :
  rel_map ["/r/a.txt"; "/elsewhere/b.txt"; "/r/d/c.txt"] "/r//" !! "d/c.txt"
    = Some "/r/d/c.txt"
  ∧ rel_map ["/r/a.txt"; "/elsewhere/b.txt"; "/r/d/c.txt"] "/r//" !! "b.txt"
    ≠ Some "/elsewhere/b.txt".
Proof.
  destruct (rel_map_index ["/r/a.txt"; "/elsewhere/b.txt"; "/r/d/c.txt"] "/r//")
    as (Hin & Hout & _).
  split.
  - apply (Hin "/r/d/c.txt"); [|reflexivity].
    apply elem_of_cons; right. apply elem_of_cons; right. by left.
  - apply Hout. reflexivity.
Defined.

(** C5: a path listed earlier is not replaced by a different path listed
    later.  Every later path under the root that differs from it has a
    different key, and the finished index still gives the earlier path
    under its key. *)
Theorem rel_map_no_overwrite (before after : list string) (f root : string) :
  let r := rstrip_slash root in
  let key g := str_from (String.length r + 1) g in
  startswith f (r ++ "/") = true →
  rel_map (before ++ f :: after) root !! key f = Some f
  ∧ ∀ g, g ∈ after → startswith g (r ++ "/") = true → g ≠ f → key g ≠ key f.
Proof.
  intros r key Hf. split.
  - apply rel_map_lookup. split_and!; [|done|done].
    apply elem_of_app; right. by left.
  - intros g _ Hg Hne Hk. apply Hne. by apply (key_of_inj root).
Qed.

Lemma rel_map_no_overwrite_witness :
  rel_map (["/r/x"] ++ "/r/a" :: ["/r/b"; "/r/a"; "/r/ab"]) "/r" !! "a" = Some "/r/a"
  ∧ str_from 3 "/r/ab" ≠ str_from 3 "/r/a".
Proof.
  destruct (rel_map_no_overwrite ["/r/x"] ["/r/b"; "/r/a"; "/r/ab"] "/r/a" "/r")
    as [Hkept Hothers]; [reflexivity|].
  split; [exact Hkept|].
  apply (Hothers "/r/ab"); [|reflexivity|discriminate].
  apply elem_of_cons; right. apply elem_of_cons; right. by left.
Defined.

End IndexSpec.

(** ** [compare_folders] *)

Module CompareSpec.
Import Py App StrFacts IndexFacts LoopFacts.
Local Open Scope string_scope.

Section Compare.
Variable fnmatch : string → string → bool.
Variables (sftp_old sftp_new : sftp) (folder_old folder_new : string).
Variables (ignore_patterns : list string).

Let files_old := index_of sftp_old folder_old.
Let files_new := index_of sftp_new folder_new.
Let all_files := reconcile files_old files_new.

Lemma compare_folders_unfold hide_ignored progress_callback :
  compare_folders fnmatch sftp_old sftp_new folder_old folder_new
    ignore_patterns hide_ignored progress_callback
  = (concat (map (records_at fnmatch sftp_old sftp_new files_old files_new
                    ignore_patterns hide_ignored progress_callback (len all_files))
               (enumerate 1 all_files)),
     concat (map (events_at fnmatch sftp_old sftp_new files_old files_new
                    ignore_patterns hide_ignored progress_callback (len all_files))
               (enumerate 1 all_files))).
Proof. unfold compare_folders. by rewrite compare_fold. Qed.

(** A read that appears among the events belongs to a reconciled path
    that is not ignored. *)
Lemma read_event_origin hide_ignored progress_callback s o res :
  EvRead s o res ∈ (compare_folders fnmatch sftp_old sftp_new folder_old
                      folder_new ignore_patterns hide_ignored progress_callback).2 →
  ∃ rel, rel ∈ all_files
    ∧ should_ignore fnmatch rel ignore_patterns = false
    ∧ o = (match s with Old => files_old | New => files_new end) !! rel
    ∧ res = read_file_lines (match s with Old => sftp_old | New => sftp_new end) o
    ∧ ∀ i, records_at fnmatch sftp_old sftp_new files_old files_new
             ignore_patterns hide_ignored progress_callback (len all_files) (i, rel)
           = [match read_file_lines sftp_old (files_old !! rel),
                    read_file_lines sftp_new (files_new !! rel) with
              | Some lo, Some ln => (rel, BothPresentDiffed, side_by_side_diff lo ln)
              | _, _ => (rel, Unreadable, [])
              end].
Proof.
  rewrite compare_folders_unfold; simpl.
  intros ([i rel]&Hir&Hev)%elem_of_concat_map.
  apply events_at_read in Hev as (Hig&Ho&Hres&Hrec); simpl in *.
  exists rel. split_and!; try done.
  - by eapply elem_of_enumerate_snd.
  - intros j. by rewrite (records_at_index _ _ _ _ _ _ _ _ _ j i).
Qed.

Lemma index_lookup_inj s rel rel' p :
  (match s with Old => files_old | New => files_new end) !! rel = Some p →
  (match s with Old => files_old | New => files_new end) !! rel' = Some p →
  rel = rel'.
Proof. destruct s; apply rel_map_key_unique. Qed.

Lemma record_of_path hide_ignored progress_callback rel r :
  r ∈ (compare_folders fnmatch sftp_old sftp_new folder_old folder_new
         ignore_patterns hide_ignored progress_callback).1 →
  r.1.1 = rel →
  ∃ i, (i, rel) ∈ enumerate 1 all_files
     ∧ r ∈ records_at fnmatch sftp_old sftp_new files_old files_new
             ignore_patterns hide_ignored progress_callback (len all_files) (i, rel).
Proof.
  rewrite compare_folders_unfold; simpl.
  intros ([i rel']&Hir&Hr)%elem_of_concat_map Hrel.
  pose proof (records_at_path _ _ _ _ _ _ _ _ _ _ _ Hr) as Hp. simpl in Hp.
  exists i. by replace rel with rel' by congruence.
Qed.

Lemma enumerated rel : rel ∈ all_files → ∃ i, (i, rel) ∈ enumerate 1 all_files.
Proof.
  intros Hin. rewrite <- (enumerate_snd 1 all_files) in Hin.
  apply list_elem_of_fmap in Hin as ([i rel']&->&Hin). by exists i.
Qed.

(** The record of a path whose read is among the events. *)
Lemma record_after_read hide_ignored progress_callback s rel p res :
  (match s with Old => files_old | New => files_new end) !! rel = Some p →
  EvRead s (Some p) res ∈ (compare_folders fnmatch sftp_old sftp_new folder_old
                             folder_new ignore_patterns hide_ignored
                             progress_callback).2 →
  let r := match read_file_lines sftp_old (files_old !! rel),
                 read_file_lines sftp_new (files_new !! rel) with
           | Some lo, Some ln => (rel, BothPresentDiffed, side_by_side_diff lo ln)
           | _, _ => (rel, Unreadable, [])
           end in
  res = read_file_lines (match s with Old => sftp_old | New => sftp_new end) (Some p)
  ∧ r ∈ (compare_folders fnmatch sftp_old sftp_new folder_old folder_new
           ignore_patterns hide_ignored progress_callback).1
  ∧ ∀ r', r' ∈ (compare_folders fnmatch sftp_old sftp_new folder_old folder_new
                  ignore_patterns hide_ignored progress_callback).1 →
          r'.1.1 = rel → r' = r.
Proof.
  intros Hp Hev r.
  destruct (read_event_origin _ _ _ _ _ Hev) as (rel'&Hin&_&Ho&Hres&Hrec).
  symmetry in Ho. pose proof (index_lookup_inj _ _ _ _ Hp Ho) as <-.
  split_and!; [done| |].
  - destruct (enumerated rel Hin) as [i Hi].
    rewrite compare_folders_unfold; simpl.
    apply elem_of_concat_map. exists (i, rel). split; [done|].
    rewrite Hrec. by left.
  - intros r' Hr' Hpath.
    destruct (record_of_path _ _ _ _ Hr' Hpath) as (i&_&Hr).
    rewrite Hrec in Hr. by apply list_elem_of_singleton in Hr.
Qed.

End Compare.

(** C6: a relative path that matches an ignore pattern is never read, on
    either side and whatever [hide_ignored] is: no call of
    [read_file_lines] in the run has the path the index gives for it. *)
Theorem ignored_path_never_read fnmatch sftp_old sftp_new folder_old folder_new
    ignore_patterns hide_ignored progress_callback rel s p res :
  should_ignore fnmatch rel ignore_patterns = true →
  (match s with
   | Old => index_of sftp_old folder_old
   | New => index_of sftp_new folder_new
   end) !! rel = Some p →
  EvRead s (Some p) res ∉
    (compare_folders fnmatch sftp_old sftp_new folder_old folder_new
       ignore_patterns hide_ignored progress_callback).2.
Proof.
  intros Hig Hp (rel'&_&Hig'&Ho&_)%read_event_origin.
  symmetry in Ho.
  pose proof (index_lookup_inj sftp_old sftp_new folder_old folder_new
                s _ _ _ Hp Ho) as <-.
  congruence.
Qed.

Lemma ignored_path_never_read_witness :
  EvRead Old (Some "/old/data.bin") None ∉ (Demo.run false true).2.
Proof.
  apply (ignored_path_never_read Demo.suffix_match Demo.old_server
           Demo.new_server "/old" "/new/" ["*.bin"] false true "data.bin" Old).
  - reflexivity.
  - vm_compute. reflexivity.
Defined.

(** C7: with a progress callback, the run calls it once for every
    reconciled path, in order, with the position of the path counted from
    1, the number of reconciled paths, and the path; that number is the
    size of the union of the two key sets. *)
Theorem progress_once_per_path fnmatch sftp_old sftp_new folder_old folder_new
    ignore_patterns hide_ignored :
  let files_old := index_of sftp_old folder_old in
  let files_new := index_of sftp_new folder_new in
  let all_files := reconcile files_old files_new in
  let total := len all_files in
  progress_calls
    (compare_folders fnmatch sftp_old sftp_new folder_old folder_new
       ignore_patterns hide_ignored true).2
  = (λ ir : Z * string, (ir.1, total, ir.2)) <$> enumerate 1 all_files
  ∧ (enumerate 1 all_files).*1 = seqZ 1 total
  ∧ (enumerate 1 all_files).*2 = all_files
  ∧ total = Z.of_nat (size (dom files_old ∪ dom files_new)).
Proof.
  intros files_old files_new all_files total. split_and!.
  - rewrite compare_folders_unfold; simpl. unfold progress_calls.
    rewrite omap_concat, map_map.
    rewrite <- (concat_singletons (λ ir : Z * string, (ir.1, total, ir.2))).
    f_equal. apply map_ext.
    intros ir. by apply events_at_progress.
  - apply enumerate_fst.
  - apply enumerate_snd.
  - unfold total, len. f_equal. apply reconcile_length.
Qed.

(** C8: when ignored paths are shown, the result has one record for each
    reconciled path, in the order of the reconciled paths; these are the
    keys of the two indexes, each once, in ascending order, so there are as
    many records as the union of the key sets has elements.  The record of
    a path carries the one classification that [classify] gives it. *)
Theorem one_record_per_path fnmatch sftp_old sftp_new folder_old folder_new
    ignore_patterns progress_callback :
  let files_old := index_of sftp_old folder_old in
  let files_new := index_of sftp_new folder_new in
  let diffs := (compare_folders fnmatch sftp_old sftp_new folder_old folder_new
                  ignore_patterns false progress_callback).1 in
  (λ r : FileComparisonRecord, r.1.1) <$> diffs = reconcile files_old files_new
  ∧ reconcile files_old files_new ≡ₚ elements (dom files_old ∪ dom files_new)
  ∧ NoDup (reconcile files_old files_new)
  ∧ StronglySorted str_le (reconcile files_old files_new)
  ∧ length diffs = size (dom files_old ∪ dom files_new)
  ∧ Forall (λ r : FileComparisonRecord,
              r.1.2 = classify fnmatch sftp_old sftp_new files_old files_new
                        ignore_patterns r.1.1) diffs.
Proof.
  intros files_old files_new diffs.
  assert ((λ r : FileComparisonRecord, r.1.1) <$> diffs
          = reconcile files_old files_new) as Hpaths.
  { unfold diffs. rewrite compare_folders_unfold; simpl.
    rewrite records_shown_paths by done. apply enumerate_snd. }
  split_and!; [done|apply reconcile_perm|apply reconcile_NoDup
               |apply reconcile_sorted| |].
  - rewrite <- reconcile_length, <- Hpaths. by rewrite length_fmap.
  - apply Forall_forall. intros r Hr. unfold diffs in Hr.
    rewrite compare_folders_unfold in Hr; simpl in Hr.
    apply elem_of_concat_map in Hr as (ir&_&Hr).
    rewrite (records_at_path _ _ _ _ _ _ _ _ _ _ _ Hr).
    eapply records_at_class; [| |exact Hr]; apply rel_map_truthy.
Qed.

(** C9: for a path that both indexes hold, a read of either side that
    comes back with the failure marker makes the record [Unreadable],
    without lines; two reads that succeed make it [BothPresentDiffed], with
    the lines [side_by_side_diff] gives.  A file without lines reads as
    the empty list, which is not the failure marker, and two such files
    give a [BothPresentDiffed] record without lines. *)
Theorem unreadable_iff_read_fails fnmatch sftp_old sftp_new folder_old folder_new
    ignore_patterns hide_ignored progress_callback rel po pn :
  let run := compare_folders fnmatch sftp_old sftp_new folder_old folder_new
               ignore_patterns hide_ignored progress_callback in
  index_of sftp_old folder_old !! rel = Some po →
  index_of sftp_new folder_new !! rel = Some pn →
  (EvRead Old (Some po) None ∈ run.2 ∨ EvRead New (Some pn) None ∈ run.2 →
   (rel, Unreadable, []) ∈ run.1
   ∧ ∀ r, r ∈ run.1 → r.1.1 = rel → r = (rel, Unreadable, []))
  ∧ (∀ lo ln,
       EvRead Old (Some po) (Some lo) ∈ run.2 →
       EvRead New (Some pn) (Some ln) ∈ run.2 →
       (rel, BothPresentDiffed, side_by_side_diff lo ln) ∈ run.1
       ∧ ∀ r, r ∈ run.1 → r.1.1 = rel →
              r = (rel, BothPresentDiffed, side_by_side_diff lo ln))
  ∧ side_by_side_diff [] [] = []
  ∧ Some ([] : list string) ≠ None.
Proof.
  intros run Hpo Hpn. split_and!; [| |done|done].
  - intros [Hev|Hev].
    + destruct (record_after_read fnmatch sftp_old sftp_new folder_old folder_new
                  ignore_patterns hide_ignored progress_callback Old rel po None
                  Hpo Hev) as (Hres&Hin&Huniq).
      rewrite Hpo in Hin, Huniq. rewrite <- Hres in Hin, Huniq. done.
    + destruct (record_after_read fnmatch sftp_old sftp_new folder_old folder_new
                  ignore_patterns hide_ignored progress_callback New rel pn None
                  Hpn Hev) as (Hres&Hin&Huniq).
      rewrite Hpn in Hin, Huniq. rewrite <- Hres in Hin, Huniq.
      by destruct (read_file_lines sftp_old _).
  - intros lo ln Hevo Hevn.
    destruct (record_after_read fnmatch sftp_old sftp_new folder_old folder_new
                ignore_patterns hide_ignored progress_callback Old rel po _
                Hpo Hevo) as (Hres&Hin&Huniq).
    destruct (record_after_read fnmatch sftp_old sftp_new folder_old folder_new
                ignore_patterns hide_ignored progress_callback New rel pn _
                Hpn Hevn) as (Hres'&_&_).
    rewrite Hpo, Hpn in Hin, Huniq. rewrite <- Hres, <- Hres' in Hin, Huniq.
    done.
Qed.

Lemma unreadable_iff_read_fails_witness :
  ("sub/c.txt", Unreadable, []) ∈ (Demo.run false true).1
  ∧ ("sub/e.txt", BothPresentDiffed, []) ∈ (Demo.run false true).1.
Proof.
  split.
  - refine (proj1 (proj1 (unreadable_iff_read_fails Demo.suffix_match
             Demo.old_server Demo.new_server "/old" "/new/" ["*.bin"] false true
             "sub/c.txt" "/old/sub/c.txt" "/new/sub/c.txt" _ _) _)).
    + vm_compute; reflexivity.
    + vm_compute; reflexivity.
    + left. apply (bool_decide_unpack _). vm_compute. exact I.
  - refine (proj1 (proj1 (proj2 (unreadable_iff_read_fails Demo.suffix_match
             Demo.old_server Demo.new_server "/old" "/new/" ["*.bin"] false true
             "sub/e.txt" "/old/sub/e.txt" "/new/sub/e.txt" _ _)) [] [] _ _)).
    + vm_compute; reflexivity.
    + vm_compute; reflexivity.
    + apply (bool_decide_unpack _). vm_compute. exact I.
    + apply (bool_decide_unpack _). vm_compute. exact I.
Defined.

(** C10: a record that is not [BothPresentDiffed] has no aligned
    lines. *)
Theorem lines_only_when_diffed fnmatch sftp_old sftp_new folder_old folder_new
    ignore_patterns hide_ignored progress_callback r :
  r ∈ (compare_folders fnmatch sftp_old sftp_new folder_old folder_new
         ignore_patterns hide_ignored progress_callback).1 →
  r.1.2 ≠ BothPresentDiffed → r.2 = [].
Proof.
  rewrite compare_folders_unfold; simpl.
  intros (ir&_&Hr)%elem_of_concat_map. by eapply records_at_lines.
Qed.

Lemma lines_only_when_diffed_witness :
  ("data.bin", Ignored, ([] : list AlignedLinePair)).2 = [].
Proof.
  apply (lines_only_when_diffed Demo.suffix_match Demo.old_server
           Demo.new_server "/old" "/new/" ["*.bin"] false true).
  - apply (bool_decide_unpack _). vm_compute. exact I.
  - discriminate.
Defined.

End CompareSpec.

(** ** [side_by_side_diff] *)

Module AlignSpec.
Import Py Difflib App LoopLemmas MatcherFacts BlockFacts OpcodeFacts AlignFacts.

(** A well-formed opcode over [lines_old] and [lines_new]: its two
    ranges lie in the sequences, and its tag fits their lengths. *)
Definition well_formed (lines_old lines_new : list string) (op : opcode) : Prop :=
  let '(tag, i1, i2, j1, j2) := op in
  0 ≤ i1 ∧ i1 ≤ i2 ∧ i2 ≤ len lines_old ∧ 0 ≤ j1 ∧ j1 ≤ j2 ∧ j2 ≤ len lines_new
  ∧ len (slice lines_old i1 i2) = i2 - i1
  ∧ len (slice lines_new j1 j2) = j2 - j1
  ∧ match tag with
    | Replace => i1 < i2 ∧ j1 < j2
    | Delete => i1 < i2 ∧ j1 = j2
    | Insert => i1 = i2 ∧ j1 < j2
    | Equal => i1 < i2 ∧ i2 - i1 = j2 - j1
    end.

(** The pairs the specification asks for, run by run (section 4.1). *)
Definition spec_run (lines_old lines_new : list string) (op : opcode)
    : list AlignedLinePair :=
  let '(tag, i1, i2, j1, j2) := op in
  let olds := slice lines_old i1 i2 in
  let news := slice lines_new j1 j2 in
  match tag with
  | Equal => zip_with (λ o n, (o, n, Unchanged)) olds news
  | Replace => (λ on : string * string, (on.1, on.2, Modified)) <$> pad_zip olds news
  | Delete => (λ o, (o, EmptyString, Removed)) <$> olds
  | Insert => (λ n, (EmptyString, n, Added)) <$> news
  end.

Lemma opcodes_well_formed lines_old lines_new :
  Forall (well_formed lines_old lines_new)
    (get_opcodes (chain_b lines_old lines_new)).
Proof.
  pose proof (get_opcodes_valid (chain_b lines_old lines_new)) as Hv.
  destruct (chain_b_seqs lines_old lines_new) as (Ha&Hb&_).
  eapply Forall_impl; [exact Hv|].
  intros [[[[tag i1] i2] j1] j2]. unfold valid_op, well_formed.
  rewrite Ha, Hb. intros (?&?&?&?&?&?&?). split_and!; try done; by apply slice_length.
Qed.

Lemma run_of_spec lines_old lines_new op :
  well_formed lines_old lines_new op →
  run_of lines_old lines_new op = spec_run lines_old lines_new op.
Proof.
  destruct op as [[[[tag i1] i2] j1] j2]. unfold well_formed, run_of, spec_run.
  intros (?&?&?&?&?&?&Ho&Hn&Htag). unfold len in Ho, Hn.
  destruct tag; simpl.
  - done.
  - destruct Htag as [_ <-].
    assert (slice lines_new j1 j1 = []) as -> by (apply nil_length_inv; lia).
    rewrite pad_zip_nil_r, <- list_fmap_compose. done.
  - destruct Htag as [<- _].
    assert (slice lines_old i1 i1 = []) as -> by (apply nil_length_inv; lia).
    simpl. rewrite <- list_fmap_compose. done.
  - rewrite pad_zip_same_length by lia.
    generalize (slice lines_old i1 i2) (slice lines_new j1 j2).
    induction l as [|o l IH]; intros [|n k]; simpl; try done. by rewrite IH.
Qed.

Lemma run_of_length lines_old lines_new op :
  well_formed lines_old lines_new op →
  length (run_of lines_old lines_new op)
  = Z.to_nat (Z.max (op.1.1.2 - op.1.1.1.2) (op.2 - op.1.2)).
Proof.
  destruct op as [[[[tag i1] i2] j1] j2]. unfold well_formed, run_of; simpl.
  intros (?&?&?&?&?&?&Ho&Hn&_). unfold len in Ho, Hn.
  rewrite length_fmap, pad_zip_length. lia.
Qed.

(** C1: a run tagged [replace] with old range [i1..i2] and new range
    [j1..j2] contributes, at its place in the output, exactly
    [max (i2 - i1) (j2 - j1)] pairs; the pair at position [k] holds the
    [k]-th line of the old sub-run and the [k]-th line of the new one, the
    empty string standing in where a sub-run has ended, and every pair is
    [Modified]. *)
Theorem replace_run_pairs (lines_old lines_new : list string)
    (pre post : list opcode) (i1 i2 j1 j2 : Z) :
  get_opcodes (chain_b lines_old lines_new)
    = pre ++ (Replace, i1, i2, j1, j2) :: post →
  let olds := slice lines_old i1 i2 in
  let news := slice lines_new j1 j2 in
  ∃ run,
    side_by_side_diff lines_old lines_new
      = emit lines_old lines_new pre ++ run ++ emit lines_old lines_new post
    ∧ len olds = i2 - i1 ∧ len news = j2 - j1
    ∧ len run = Z.max (i2 - i1) (j2 - j1)
    ∧ ∀ k, (k < length run)%nat →
           run !! k = Some (nth k olds EmptyString, nth k news EmptyString, Modified).
Proof.
  intros Hops olds news.
  exists (run_of lines_old lines_new (Replace, i1, i2, j1, j2)).
  pose proof (opcodes_well_formed lines_old lines_new) as Hwf.
  rewrite Hops in Hwf. apply Forall_app in Hwf as [_ Hwf].
  apply Forall_cons in Hwf as [Hwf _].
  pose proof (run_of_length _ _ _ Hwf) as Hlen. cbn [fst snd] in Hlen.
  destruct Hwf as (?&?&?&?&?&?&Ho&Hn&_).
  split_and!; [|done|done| |].
  - unfold side_by_side_diff. fold (emit lines_old lines_new
      (get_opcodes (chain_b lines_old lines_new))).
    rewrite Hops, emit_app. f_equal.
    change ((Replace, i1, i2, j1, j2) :: post)
      with ([(Replace, i1, i2, j1, j2)] ++ post).
    rewrite emit_app. f_equal. rewrite emit_runs. simpl. by rewrite app_nil_r.
  - unfold len. rewrite Hlen. lia.
  - intros k Hk. unfold run_of in *. rewrite length_fmap, pad_zip_length in Hk.
    rewrite list_lookup_fmap, pad_zip_lookup by done. done.
Qed.

Lemma replace_run_pairs_witness :
  ∃ run,
    side_by_side_diff ["a"; "b"; "c"; "d"]%string ["a"; "x"; "d"]%string
      = [("a", "a", Unchanged)]%string ++ run ++ [("d", "d", Unchanged)]%string
    ∧ len run = 2
    ∧ run !! 1%nat = Some ("c", "", Modified)%string.
Proof.
  destruct (replace_run_pairs ["a"; "b"; "c"; "d"]%string ["a"; "x"; "d"]%string
              [(Equal, 0, 1, 0, 1)] [(Equal, 3, 4, 2, 3)] 1 3 1 2)
    as (run&Hout&_&_&Hlen&Hk); [vm_compute; reflexivity|].
  exists run. split_and!; [exact Hout|exact Hlen|].
  apply Hk. unfold len in Hlen. lia.
Defined.

(** The lines of the old and of the new document that an opcode run
    covers, and the larger of the two counts. *)
Definition old_lines (lines_old : list string) (op : opcode) : list string :=
  let '(_, i1, i2, _, _) := op in slice lines_old i1 i2.

Definition new_lines (lines_new : list string) (op : opcode) : list string :=
  let '(_, _, _, j1, j2) := op in slice lines_new j1 j2.

Definition run_length (op : opcode) : nat :=
  let '(_, i1, i2, j1, j2) := op in Z.to_nat (Z.max (i2 - i1) (j2 - j1)).

Lemma runs_spec lines_old lines_new ops :
  Forall (well_formed lines_old lines_new) ops →
  run_of lines_old lines_new <$> ops = spec_run lines_old lines_new <$> ops.
Proof.
  induction 1 as [|op l Hop _ IH]; csimpl; [done|]. by rewrite IH, run_of_spec.
Qed.

Lemma runs_length lines_old lines_new ops :
  Forall (well_formed lines_old lines_new) ops →
  length (concat (run_of lines_old lines_new <$> ops))
  = sum_list_with run_length ops.
Proof.
  induction 1 as [|op l Hop _ IH]; csimpl; [done|].
  rewrite length_app, IH, run_of_length by done.
  by destruct op as [[[[??]?]?]?].
Qed.

(** C3: the output is made of the runs of the opcodes, one after the
    other: an equal run gives its lines paired as [Unchanged], a delete run
    one [Removed] pair per old line with an empty new side, an insert run
    one [Added] pair per new line with an empty old side, a replace run
    its padded [Modified] pairs.  The length of the output is the sum of
    the larger side of each run.  The runs are well formed, and their
    old sides, read in order, are the old document, their new sides the
    new document. *)
Theorem alignment_in_document_order (lines_old lines_new : list string) :
  let ops := get_opcodes (chain_b lines_old lines_new) in
  side_by_side_diff lines_old lines_new
    = concat (spec_run lines_old lines_new <$> ops)
  ∧ length (side_by_side_diff lines_old lines_new) = sum_list_with run_length ops
  ∧ Forall (well_formed lines_old lines_new) ops
  ∧ concat (old_lines lines_old <$> ops) = lines_old
  ∧ concat (new_lines lines_new <$> ops) = lines_new.
Proof.
  intros ops. pose proof (opcodes_well_formed lines_old lines_new) as Hwf.
  fold ops in Hwf.
  assert (side_by_side_diff lines_old lines_new = emit lines_old lines_new ops)
    as -> by done.
  rewrite emit_runs.
  destruct (chain_b_seqs lines_old lines_new) as (Ha&Hb&_).
  split_and!; [| |done| |].
  - by rewrite runs_spec.
  - by apply runs_length.
  - pose proof (get_opcodes_old (chain_b lines_old lines_new)) as Ho.
    rewrite Ha in Ho. rewrite <- Ho at 2. f_equal. apply list_fmap_ext.
    intros _ [[[[??]?]?]?] _. unfold old_lines, old_run. by rewrite Ha.
  - pose proof (get_opcodes_new (chain_b lines_old lines_new)) as Hn.
    rewrite Hb in Hn. rewrite <- Hn at 2. f_equal. apply list_fmap_ext.
    intros _ [[[[??]?]?]?] _. unfold new_lines, new_run. by rewrite Hb.
Qed.

End AlignSpec.

Module SameSpec.
Import Py Difflib App LoopLemmas AlignFacts SameFacts.

Lemma zip_diag {B} (l : list B) : zip l l = (λ x, (x, x)) <$> l.
Proof. induction l as [|x l IH]; csimpl; [done|]. by rewrite IH. Qed.

(** C2: aligning a sequence of lines with itself pairs every line with
    itself as [Unchanged]; so all pairs are [Unchanged] and there are as
    many as lines. *)
Theorem align_same (a : list string) :
  side_by_side_diff a a = (λ x, (x, x, Unchanged)) <$> a
  ∧ Forall (λ p : AlignedLinePair, p.2 = Unchanged) (side_by_side_diff a a)
  ∧ len (side_by_side_diff a a) = len a.
Proof.
  assert (side_by_side_diff a a = (λ x, (x, x, Unchanged)) <$> a) as ->.
  { unfold side_by_side_diff. rewrite get_opcodes_same.
    case_decide as Hn.
    - destruct a; [done|]. unfold len in Hn. simpl in Hn. lia.
    - cbn [fold_left]. rewrite diff_step_run. unfold run_of.
      rewrite slice_all, pad_zip_same_length, zip_diag by done.
      by rewrite <- list_fmap_compose. }
  split_and!; [done| |].
  - apply Forall_fmap, Forall_forall. by intros.
  - unfold len. by rewrite length_fmap.
Qed.

End SameSpec.

(** * Further properties of the code *)

(** ** [side_by_side_diff]: what the pairs say *)

Module AlignMore.
Import Py Difflib App Report LoopLemmas MatcherFacts BlockFacts OpcodeFacts
  AlignFacts AlignSpec ChainFacts SameFacts MatchFacts.

Lemma chain_b_sound (lines_old lines_new : list string) :
  b2j_sound (chain_b lines_old lines_new).
Proof.
  intros x js j Hjs Hj. destruct (chain_b_seqs lines_old lines_new) as (_&Hb&_).
  destruct (chain_b_places _ _ _ _ Hjs) as [_ Hmem]. apply Hmem in Hj.
  rewrite Hb. split; [lia|]. apply Hj.
Qed.

Lemma elem_of_concat_fmap {B C} (f : B → list C) (l : list B) y :
  y ∈ concat (f <$> l) ↔ ∃ x, x ∈ l ∧ y ∈ f x.
Proof.
  induction l as [|x l IH]; csimpl.
  - rewrite elem_of_nil. split; [done|]. intros (x&Hx&_). by apply elem_of_nil in Hx.
  - rewrite elem_of_app, IH. setoid_rewrite elem_of_cons. naive_solver.
Qed.

Lemma output_runs lines_old lines_new :
  side_by_side_diff lines_old lines_new
  = concat (spec_run lines_old lines_new
              <$> get_opcodes (chain_b lines_old lines_new)).
Proof.
  assert (side_by_side_diff lines_old lines_new
          = emit lines_old lines_new (get_opcodes (chain_b lines_old lines_new)))
    as -> by done.
  rewrite emit_runs, runs_spec; [done|apply opcodes_well_formed].
Qed.

Lemma opcodes_equal_runs lines_old lines_new :
  Forall (λ op : opcode, op.1.1.1.1 = Equal →
                         old_lines lines_old op = new_lines lines_new op)
    (get_opcodes (chain_b lines_old lines_new)).
Proof.
  pose proof (get_opcodes_equal (chain_b lines_old lines_new)
                (chain_b_sound lines_old lines_new)) as Heq.
  destruct (chain_b_seqs lines_old lines_new) as (Ha&Hb&_).
  eapply Forall_impl; [exact Heq|].
  intros [[[[tag i1] i2] j1] j2]. unfold equal_ok, old_lines, new_lines; simpl.
  by rewrite Ha, Hb.
Qed.

Lemma opcodes_cover lines_old lines_new :
  concat (old_lines lines_old <$> get_opcodes (chain_b lines_old lines_new))
    = lines_old
  ∧ concat (new_lines lines_new <$> get_opcodes (chain_b lines_old lines_new))
    = lines_new.
Proof.
  destruct (chain_b_seqs lines_old lines_new) as (Ha&Hb&_). split.
  - pose proof (get_opcodes_old (chain_b lines_old lines_new)) as Ho.
    rewrite Ha in Ho. etrans; [|exact Ho]. f_equal. apply list_fmap_ext.
    intros _ [[[[??]?]?]?] _. unfold old_lines, old_run. by rewrite Ha.
  - pose proof (get_opcodes_new (chain_b lines_old lines_new)) as Hn.
    rewrite Hb in Hn. etrans; [|exact Hn]. f_equal. apply list_fmap_ext.
    intros _ [[[[??]?]?]?] _. unfold new_lines, new_run. by rewrite Hb.
Qed.

(** X1: in every pair of the output, [Unchanged] means that the old and
    the new line are the same, [Removed] that the new side is empty,
    [Added] that the old side is empty. *)
Theorem pairs_by_status (lines_old lines_new : list string) :
  Forall (λ p : AlignedLinePair,
            (p.2 = Unchanged → p.1.1 = p.1.2)
            ∧ (p.2 = Removed → p.1.2 = EmptyString)
            ∧ (p.2 = Added → p.1.1 = EmptyString))
    (side_by_side_diff lines_old lines_new).
Proof.
  rewrite output_runs. apply Forall_forall. intros [[o n] s] Hp.
  apply elem_of_concat_fmap in Hp as (op&Hop&Hp).
  pose proof (opcodes_equal_runs lines_old lines_new) as Heq.
  rewrite Forall_forall in Heq. specialize (Heq _ Hop).
  destruct op as [[[[tag i1] i2] j1] j2]. unfold spec_run in Hp.
  unfold old_lines, new_lines in Heq. simpl in *.
  destruct tag.
  - apply list_elem_of_fmap in Hp as ([o' n']&[= -> -> ->]&_). done.
  - apply list_elem_of_fmap in Hp as (o'&[= -> -> ->]&_). done.
  - apply list_elem_of_fmap in Hp as (n'&[= -> -> ->]&_). done.
  - rewrite Heq in Hp by done.
    apply list_elem_of_lookup in Hp as [k Hk].
    apply lookup_zip_with_Some in Hk as (x&y&?&Hx&Hy). simplify_eq.
    split_and!; done.
Qed.

Lemma any_changed_false (l : list AlignedLinePair) :
  any_changed l = false ↔ Forall (λ p : AlignedLinePair, p.2 = Unchanged) l.
Proof.
  unfold any_changed. induction l as [|p l IH]; simpl.
  - split; [constructor|done].
  - rewrite Forall_cons, <- IH, orb_false_iff, negb_false_iff.
    by rewrite bool_decide_eq_true.
Qed.

Lemma same_output (a : list string) :
  side_by_side_diff a a = (λ x, (x, x, Unchanged)) <$> a.
Proof.
  unfold side_by_side_diff. rewrite get_opcodes_same. case_decide as Hn.
  - destruct a; [done|]. unfold len in Hn. simpl in Hn. lia.
  - cbn [fold_left]. rewrite diff_step_run. unfold run_of.
    rewrite slice_all, pad_zip_same_length, SameSpec.zip_diag by done.
    by rewrite <- list_fmap_compose.
Qed.

Lemma unchanged_run_equal lines_old lines_new op :
  well_formed lines_old lines_new op →
  Forall (λ p : AlignedLinePair, p.2 = Unchanged) (spec_run lines_old lines_new op) →
  op.1.1.1.1 = Equal.
Proof.
  destruct op as [[[[tag i1] i2] j1] j2]. unfold well_formed, spec_run; simpl.
  intros (_&_&_&_&_&_&Ho&Hn&Htag) Hall. unfold len in Ho, Hn.
  destruct tag; [| | |done]; exfalso.
  - pose proof (pad_zip_length (slice lines_old i1 i2) (slice lines_new j1 j2)).
    destruct (pad_zip _ _) as [|p l]; simpl in *; [lia|].
    by apply Forall_cons in Hall as [? _].
  - destruct (slice lines_old i1 i2) as [|o l]; simpl in *; [lia|].
    by apply Forall_cons in Hall as [? _].
  - destruct (slice lines_new j1 j2) as [|o l]; simpl in *; [lia|].
    by apply Forall_cons in Hall as [? _].
Qed.

(** No pair of the output is marked as a change exactly when the two
    documents are the same list of lines. *)
Lemma any_changed_iff_differ (lines_old lines_new : list string) :
  any_changed (side_by_side_diff lines_old lines_new) = false
  ↔ lines_old = lines_new.
Proof.
  split.
  - intros Hno.
    apply any_changed_false in Hno. rewrite output_runs in Hno.
    destruct (opcodes_cover lines_old lines_new) as [Ho Hn].
    etrans; [symmetry; exact Ho|]. etrans; [|exact Hn]. f_equal.
    apply Forall_fmap_ext_1.
    pose proof (opcodes_well_formed lines_old lines_new) as Hwf.
    pose proof (opcodes_equal_runs lines_old lines_new) as Heq.
    rewrite Forall_forall in Hwf. rewrite Forall_forall in Heq.
    rewrite Forall_forall in Hno. apply Forall_forall.
    intros op Hop. apply Heq; [done|].
    apply (unchanged_run_equal lines_old lines_new); [by apply Hwf|].
    apply Forall_forall. intros p Hp. apply Hno.
    apply elem_of_concat_fmap. eauto.
  - intros <-. rewrite same_output.
    apply any_changed_false, Forall_fmap, Forall_forall. by intros.
Qed.

(** X2: for two files that were both read, the page reports
    ["No differences"] exactly when the two files have the same lines. *)
Theorem no_differences_iff_same_lines (lines_old lines_new : list string) :
  file_diff_status BothPresentDiffed (side_by_side_diff lines_old lines_new)
    = "No differences"%string
  ↔ lines_old = lines_new.
Proof.
  unfold file_diff_status. rewrite <- any_changed_iff_differ.
  destruct (any_changed _); split; done.
Qed.

(** X3: the output has at least as many pairs as the longer of the two
    documents has lines, and at most as many as both have together. *)
Theorem output_length_bounds (lines_old lines_new : list string) :
  Z.max (len lines_old) (len lines_new)
    ≤ len (side_by_side_diff lines_old lines_new)
  ∧ len (side_by_side_diff lines_old lines_new)
    ≤ len lines_old + len lines_new.
Proof.
  assert (side_by_side_diff lines_old lines_new
          = emit lines_old lines_new (get_opcodes (chain_b lines_old lines_new)))
    as -> by done.
  rewrite emit_runs.
  destruct (opcodes_cover lines_old lines_new) as [Ho Hn].
  apply (f_equal length) in Ho, Hn. unfold len. revert Ho Hn.
  generalize (length lines_old) (length lines_new).
  generalize (get_opcodes (chain_b lines_old lines_new)). intros ops.
  induction ops as [|op ops IH]; csimpl; intros no nn Ho Hn; [lia|].
  rewrite !length_app in *.
  assert (length (run_of lines_old lines_new op)
          = Nat.max (length (old_lines lines_old op))
                    (length (new_lines lines_new op))) as ->.
  { destruct op as [[[[tag i1] i2] j1] j2]. unfold run_of, old_lines, new_lines.
    by rewrite length_fmap, pad_zip_length. }
  specialize (IH _ _ eq_refl eq_refl). lia.
Qed.

Section Disjoint.
Variables lines_old lines_new : list string.
Hypothesis Hdisjoint : ∀ x, x ∈ lines_old → x ∉ lines_new.

Local Abbreviation m := (chain_b lines_old lines_new).
Local Abbreviation la := (len lines_old).
Local Abbreviation lb := (len lines_new).

Lemma no_places x : x ∈ lines_old → default [] (b2j m !! x) = [].
Proof.
  intros Hx. destruct (b2j m !! x) as [js|] eqn:Hjs; [|done]. simpl.
  destruct (chain_b_places _ _ _ _ Hjs) as [_ Hmem].
  destruct js as [|j js]; [done|]. exfalso.
  destruct (Hmem j) as [Hj _]. destruct Hj as [_ Hj]; [by left|].
  apply (Hdisjoint x Hx). by eapply list_elem_of_lookup_2.
Qed.

Lemma rows_disjoint :
  fold_left (row_step m 0 lb) (range 0 la) (∅, (0, 0, 0)) = (∅, (0, 0, 0)).
Proof.
  destruct (chain_b_seqs lines_old lines_new) as (Ha&_&_).
  apply (fold_left_range (λ _ st, st = (∅, (0, 0, 0))) (row_step m 0 lb) 0 la);
    [unfold len; lia|done|].
  intros i st Hi ->. unfold row_step; simpl.
  rewrite Ha, getitem_lookup by lia.
  destruct (lines_old !! Z.to_nat i) as [x|] eqn:Hx; [|done].
  rewrite no_places; [done|]. by eapply list_elem_of_lookup_2.
Qed.

Lemma right_cond_disjoint junk :
  right_cond m junk la lb (0, 0, 0) = false.
Proof.
  destruct (chain_b_seqs lines_old lines_new) as (Ha&Hb&_).
  unfold right_cond. cbv beta iota. rewrite Ha, Hb. change (0 + 0) with 0.
  assert (same (getitem lines_old 0) (getitem lines_new 0) = false) as ->;
    [|by rewrite andb_false_r].
  destruct lines_old as [|x lo], lines_new as [|y ln]; try done.
  simpl. apply bool_decide_eq_false_2. intros ->.
  apply (Hdisjoint y); by left.
Qed.

Lemma find_longest_match_disjoint : find_longest_match m 0 la 0 lb = (0, 0, 0).
Proof.
  unfold find_longest_match. rewrite rows_disjoint. cbn [snd].
  assert (extend_left m false 0 0 (0, 0, 0) = (0, 0, 0)) as -> by done.
  assert (extend_right m false la lb (0, 0, 0) = (0, 0, 0)) as ->.
  { unfold extend_right. apply while_false, right_cond_disjoint. }
  assert (extend_left m true 0 0 (0, 0, 0) = (0, 0, 0)) as -> by done.
  unfold extend_right. apply while_false, right_cond_disjoint.
Qed.

Lemma found_disjoint : found m = ([], []).
Proof.
  destruct (chain_b_seqs lines_old lines_new) as (Ha&Hb&_).
  unfold found. rewrite Ha, Hb.
  destruct (Z.to_nat (2 * la + 1)) as [|fuel] eqn:Hfuel; [unfold len in *; lia|].
  cbn [while]. unfold queue_cond at 1. cbn [fst].
  unfold queue_body at 2. cbn [fst snd]. rewrite find_longest_match_disjoint.
  rewrite decide_False by (intros ?; done). by apply while_false.
Qed.

Lemma get_opcodes_disjoint :
  get_opcodes m
  = if decide (0 < la ∧ 0 < lb) then [(Replace, 0, la, 0, lb)]
    else if decide (0 < la) then [(Delete, 0, la, 0, lb)]
    else if decide (0 < lb) then [(Insert, 0, la, 0, lb)]
    else [].
Proof.
  destruct (chain_b_seqs lines_old lines_new) as (Ha&Hb&_).
  unfold get_opcodes. rewrite get_matching_blocks_eq, found_disjoint.
  rewrite Ha, Hb. simpl. repeat case_decide; done.
Qed.

End Disjoint.

(** X4: when no line of the old document occurs in the new one, the
    output is the two documents paired line by line, the shorter one
    filled up with empty strings: as many pairs as the longer document
    has lines, all of one status, which is [Modified] when both documents
    have lines, [Removed] when the new one is empty and [Added] when the
    old one is. *)
Theorem no_common_line (lines_old lines_new : list string) :
  (∀ x, x ∈ lines_old → x ∉ lines_new) →
  let status := match lines_old, lines_new with
                | [], _ => Added
                | _, [] => Removed
                | _, _ => Modified
                end in
  side_by_side_diff lines_old lines_new
    = (λ on : string * string, (on.1, on.2, status)) <$> pad_zip lines_old lines_new
  ∧ len (side_by_side_diff lines_old lines_new)
    = Z.max (len lines_old) (len lines_new).
Proof.
  intros Hdis status.
  assert (side_by_side_diff lines_old lines_new
          = (λ on : string * string, (on.1, on.2, status))
              <$> pad_zip lines_old lines_new) as ->.
  { unfold side_by_side_diff. rewrite get_opcodes_disjoint by done.
    unfold status. destruct lines_old as [|o lo], lines_new as [|n ln].
    - done.
    - rewrite decide_False by (unfold len; simpl; lia).
      rewrite decide_False by (unfold len; simpl; lia).
      rewrite decide_True by (unfold len; simpl; lia).
      cbn [fold_left]. rewrite diff_step_run. unfold run_of.
      by rewrite !slice_all.
    - rewrite decide_False by (unfold len; simpl; lia).
      rewrite decide_True by (unfold len; simpl; lia).
      cbn [fold_left]. rewrite diff_step_run. unfold run_of.
      by rewrite !slice_all.
    - rewrite decide_True by (unfold len; simpl; lia).
      cbn [fold_left]. rewrite diff_step_run. unfold run_of.
      by rewrite !slice_all. }
  split; [done|]. unfold len. rewrite length_fmap, pad_zip_length. lia.
Qed.

Lemma no_common_line_witness :
  side_by_side_diff ["a"; "b"; "c"]%string ["x"; "y"]%string
  = [("a", "x", Modified); ("b", "y", Modified); ("c", "", Modified)]%string.
Proof.
  refine (proj1 (no_common_line ["a"; "b"; "c"]%string ["x"; "y"]%string _)).
  intros x Hx Hx'.
  repeat (apply elem_of_cons in Hx as [->|Hx]);
    try (by apply elem_of_nil in Hx);
    repeat (apply elem_of_cons in Hx' as [?|Hx']; [done|]);
    by apply elem_of_nil in Hx'.
Defined.

End AlignMore.

(** ** [list_files] and the index *)

Module ListingMore.
Import Py App StrFacts IndexFacts ListingFacts.
Local Open Scope string_scope.

Lemma below_self folder :
  rstrip_slash folder ≠ "" → below (rstrip_slash folder) (rstrip_slash folder).
Proof. intros Hne. split_and!; [done|apply rstrip_last|by left]. Qed.

(** X5: when the folder is not the root and no entry of the tree has a
    name that begins with a slash, indexing loses nothing: the paths
    [list_files] returns are exactly the values of the index.  (Without
    the two conditions the values are still listed paths.) *)
Theorem listed_paths_indexed (s : sftp) (folder f : string) :
  rstrip_slash folder ≠ "" →
  well_named (listdir_attr s (rstrip_slash folder)) = true →
  f ∈ list_files s folder ↔ ∃ k, index_of s folder !! k = Some f.
Proof.
  intros Hne Hwn. unfold index_of. split.
  - intros Hf. exists (key_of folder f). apply rel_map_lookup.
    split_and!; [done| |done]. unfold prefix_of_root.
    eapply list_tree_below; [exact Hwn|by apply below_self|exact Hf].
  - intros (k&Hk). by apply rel_map_lookup in Hk as (?&_).
Qed.

Lemma listed_paths_indexed_witness :
  ∃ k, index_of Demo.old_server "/old//" !! k = Some "/old/sub/c.txt".
Proof.
  apply (listed_paths_indexed Demo.old_server "/old//" "/old/sub/c.txt");
    [discriminate|reflexivity|].
  apply (bool_decide_unpack _). vm_compute. exact I.
Defined.

(** A server that has files at the root. *)
Definition root_server : sftp :=
  Sftp (λ path, if bool_decide (path = "")
                then Dir (Some [("etc", Dir (Some [("hosts", File)]));
                                ("boot.log", File)])
                else Dir None)
       (λ _, Some []).

(** X6: a folder written with slashes only (the root) compares to
    nothing.  [list_files] strips it to the empty path, the paths it
    lists have no slash in front, and [rel_map] keeps none of them: the
    run returns no record and reads no file. *)
Theorem root_folder_compares_nothing fnmatch sftp_old sftp_new
    folder_old folder_new ignore_patterns hide_ignored progress_callback :
  rstrip_slash folder_old = "" → rstrip_slash folder_new = "" →
  well_named (listdir_attr sftp_old "") = true →
  well_named (listdir_attr sftp_new "") = true →
  compare_folders fnmatch sftp_old sftp_new folder_old folder_new
    ignore_patterns hide_ignored progress_callback = ([], []).
Proof.
  intros Ho Hn Hwo Hwn.
  assert (∀ s folder, rstrip_slash folder = "" →
            well_named (listdir_attr s "") = true → index_of s folder = ∅)
    as Hempty.
  { intros s folder Hf Hw. apply map_eq. intros k. rewrite lookup_empty.
    destruct (index_of s folder !! k) as [f|] eqn:Hk; [exfalso|done].
    apply rel_map_lookup in Hk as (Hin&Hunder&_).
    unfold list_files in Hin. unfold prefix_of_root in Hunder. rewrite Hf in *.
    pose proof (list_tree_relative _ "" Hw eq_refl f Hin) as Hrel.
    rewrite app_nil in Hunder. congruence. }
  unfold compare_folders. rewrite (Hempty _ _ Ho Hwo), (Hempty _ _ Hn Hwn).
  reflexivity.
Qed.

Lemma root_folder_compares_nothing_witness :
  compare_folders Demo.suffix_match root_server root_server "/" "//" ["*.bin"]
    false true = ([], []).
Proof.
  by apply root_folder_compares_nothing.
Defined.

(** X7: an entry whose mode is missing ends the listing of its
    directory: the entries after it are not listed, the files gathered
    before it are kept. *)
Theorem entries_after_modeless_not_listed (es1 es2 : list (string * node))
    (name path : string) :
  list_tree (Dir (Some (es1 ++ (name, NoMode) :: es2)%list)) path
  = list_tree (Dir (Some es1)) path.
Proof. rewrite !list_tree_walk. apply walk_cut. Qed.

(** X8: the index depends on which paths are listed, not on their order
    nor on how often each is listed. *)
Theorem rel_map_same_paths (files1 files2 : list string) (root : string) :
  (∀ f, f ∈ files1 ↔ f ∈ files2) → rel_map files1 root = rel_map files2 root.
Proof.
  intros Hsame. apply map_eq. intros k. apply option_eq. intros f.
  rewrite !rel_map_lookup, Hsame. done.
Qed.

Lemma rel_map_same_paths_witness :
  rel_map ["/r/a"; "/r/b"; "/r/a"] "/r" = rel_map ["/r/b"; "/r/a"] "/r".
Proof.
  apply rel_map_same_paths. intros f.
  rewrite !elem_of_cons, !elem_of_nil. tauto.
Defined.

End ListingMore.

(** ** [compare_folders]: flags and reads *)

Module CompareMore.
Import Py App StrFacts IndexFacts LoopFacts CompareSpec.

(** The calls of [read_file_lines] among the events of a run. *)
Definition is_read (e : event) : Prop :=
  match e with
  | EvRead _ _ _ => True
  | EvProgress _ _ _ => False
  end.

Global Instance is_read_dec e : Decision (is_read e).
Proof. destruct e; simpl; apply _. Defined.

Lemma filter_concat_map {B C} (P : C → Prop) `{∀ x, Decision (P x)}
    (f : B → list C) (l : list B) :
  filter P (concat (map f l)) = concat (map (λ x, filter P (f x)) l).
Proof.
  induction l as [|x l IH]; simpl; [done|]. by rewrite filter_app, IH.
Qed.

Lemma concat_map_ext {B C} (f g : B → list C) (l : list B) :
  (∀ x, x ∈ l → f x = g x) → concat (map f l) = concat (map g l).
Proof.
  induction l as [|x l IH]; intros Hfg; simpl; [done|].
  rewrite Hfg by (by left). rewrite IH; [done|].
  intros y Hy. apply Hfg. by right.
Qed.

Lemma concat_map_snd {A B C} (f : A * B → list C) (g : B → list C)
    (l : list (A * B)) :
  (∀ x, x ∈ l → f x = g x.2) → concat (map f l) = concat (map g (l.*2)).
Proof.
  induction l as [|x l IH]; intros Hfg; [done|].
  rewrite fmap_cons. simpl. f_equal.
  - apply Hfg. by left.
  - apply IH. intros y Hy. apply Hfg. by right.
Qed.

Section Flags.
Variable fnmatch : string → string → bool.
Variables (sftp_old sftp_new : sftp) (files_old files_new : gmap string string).
Variables (ignore_patterns : list string).
Variable total : Z.

Local Abbreviation records hide cb :=
  (records_at fnmatch sftp_old sftp_new files_old files_new ignore_patterns
     hide cb total).
Local Abbreviation events hide cb :=
  (events_at fnmatch sftp_old sftp_new files_old files_new ignore_patterns
     hide cb total).

Lemma records_hidden cb ir :
  records true cb ir
  = filter (λ r : FileComparisonRecord, r.1.2 ≠ Ignored) (records false cb ir).
Proof.
  unfold records_at, compare_step, notify. destruct ir as [i rel]; simpl.
  repeat (case_match; simplify_eq/=); done.
Qed.

Lemma records_hidden_paths cb ir :
  (λ r : FileComparisonRecord, r.1.1) <$> records true cb ir
  = filter (λ rel, should_ignore fnmatch rel ignore_patterns = false) [ir.2].
Proof.
  unfold records_at, compare_step, notify. destruct ir as [i rel]; simpl.
  rewrite filter_cons, filter_nil.
  destruct (should_ignore fnmatch rel ignore_patterns) eqn:Hig; simpl.
  - done.
  - repeat (case_match; simplify_eq/=); done.
Qed.

Lemma records_any_callback hide ir : records hide true ir = records hide false ir.
Proof.
  unfold records_at, compare_step, notify. destruct ir as [i rel]; simpl.
  repeat (case_match; simplify_eq/=); done.
Qed.

Lemma events_any_hide cb ir : events true cb ir = events false cb ir.
Proof.
  unfold events_at, compare_step, notify. destruct ir as [i rel]; simpl.
  repeat (case_match; simplify_eq/=); done.
Qed.

Lemma events_reads hide ir :
  filter is_read (events hide true ir) = events hide false ir.
Proof.
  unfold events_at, compare_step, notify. destruct ir as [i rel]; simpl.
  repeat (case_match; simplify_eq/=); done.
Qed.

Lemma events_silent hide ir : progress_calls (events hide false ir) = [].
Proof.
  unfold events_at, compare_step, notify. destruct ir as [i rel]; simpl.
  repeat (case_match; simplify_eq/=); done.
Qed.

(** The reads a path asks for: none when it is ignored or on one side
    only, else the old file and then the new one. *)
Definition reads_for (rel : string) : list event :=
  if should_ignore fnmatch rel ignore_patterns then []
  else
    match files_old !! rel, files_new !! rel with
    | Some po, Some pn =>
        [EvRead Old (Some po) (open_rb sftp_old po);
         EvRead New (Some pn) (open_rb sftp_new pn)]
    | _, _ => []
    end.

Lemma events_reads_for hide ir :
  (∀ k f, files_old !! k = Some f → truthy (Some f) = true) →
  (∀ k f, files_new !! k = Some f → truthy (Some f) = true) →
  is_Some (files_old !! ir.2) ∨ is_Some (files_new !! ir.2) →
  events hide false ir = reads_for ir.2.
Proof.
  intros Hto Htn Hsome.
  unfold events_at, compare_step, notify, reads_for.
  destruct ir as [i rel]; cbn [fst snd] in *.
  destruct (should_ignore fnmatch rel ignore_patterns); [done|].
  destruct (files_old !! rel) as [po|] eqn:Ho;
    destruct (files_new !! rel) as [pn|] eqn:Hn;
    rewrite ?(Hto _ _ Ho), ?(Htn _ _ Hn); simpl.
  - repeat (case_match; simplify_eq/=); done.
  - done.
  - done.
  - destruct Hsome as [[? ?]|[? ?]]; done.
Qed.

End Flags.

Section Runs.
Variable fnmatch : string → string → bool.
Variables (sftp_old sftp_new : sftp) (folder_old folder_new : string).
Variables (ignore_patterns : list string).

Local Abbreviation files_old := (index_of sftp_old folder_old).
Local Abbreviation files_new := (index_of sftp_new folder_new).
Local Abbreviation all_files := (reconcile files_old files_new).
Local Abbreviation run hide cb :=
  (compare_folders fnmatch sftp_old sftp_new folder_old folder_new
     ignore_patterns hide cb).

(** X9.  [hide_ignored] only drops records: the records of a run that
    hides ignored files are those of the run that shows them, in the same
    order, without the records classified as ignored. *)
Theorem hidden_run_filters_shown_run progress_callback :
  (run true progress_callback).1
  = filter (λ r : FileComparisonRecord, r.1.2 ≠ Ignored)
      (run false progress_callback).1.
Proof.
  rewrite !compare_folders_unfold; cbn [fst].
  rewrite filter_concat_map. apply concat_map_ext.
  intros ir _. apply records_hidden.
Qed.

(** X10.  With [hide_ignored] the record paths are exactly the reconciled
    paths that match no ignore pattern, in ascending order. *)
Theorem hidden_run_paths progress_callback :
  (λ r : FileComparisonRecord, r.1.1) <$> (run true progress_callback).1
  = filter (λ rel, should_ignore fnmatch rel ignore_patterns = false) all_files.
Proof.
  rewrite compare_folders_unfold; cbn [fst].
  generalize (len all_files) as total; intros total.
  rewrite <- (enumerate_snd 1 all_files) at 2.
  induction (enumerate 1 all_files) as [|ir l IH]; [done|].
  cbn [map concat]. rewrite fmap_app, IH, records_hidden_paths.
  rewrite fmap_cons. by rewrite <- (filter_app _ [ir.2] (l.*2)).
Qed.

(** X11.  The two flags do not interfere: the records do not depend on
    whether a progress callback is given, and what the run does outside
    (reads and progress calls) does not depend on [hide_ignored]. *)
Theorem flags_independent hide_ignored progress_callback :
  (run hide_ignored progress_callback).1 = (run hide_ignored false).1
  ∧ (run hide_ignored progress_callback).2 = (run false progress_callback).2.
Proof.
  rewrite !compare_folders_unfold; cbn [fst snd]. split.
  - destruct progress_callback; [|done].
    apply concat_map_ext. intros ir _. apply records_any_callback.
  - destruct hide_ignored; [|done].
    apply concat_map_ext. intros ir _. apply events_any_hide.
Qed.

(** X12.  The reads of a run, in order: for each reconciled path that is
    not ignored and is present on both sides, the old file and then the new
    file; nothing is read for a path that is ignored or present on one side
    only.  Without a callback the run does nothing else. *)
Theorem reads_in_order hide_ignored progress_callback :
  filter is_read (run hide_ignored progress_callback).2
  = concat (map (reads_for fnmatch sftp_old sftp_new files_old files_new
                   ignore_patterns) all_files)
  ∧ (run hide_ignored false).2
    = concat (map (reads_for fnmatch sftp_old sftp_new files_old files_new
                     ignore_patterns) all_files).
Proof.
  assert ((run hide_ignored false).2
    = concat (map (reads_for fnmatch sftp_old sftp_new files_old files_new
                     ignore_patterns) all_files)) as Hfalse.
  { rewrite compare_folders_unfold; cbn [snd].
    generalize (len all_files) as total; intros total.
    rewrite <- (enumerate_snd 1 all_files) at 2.
    apply concat_map_snd. intros [i rel] Hin.
    apply events_reads_for.
    - intros k f. apply rel_map_truthy.
    - intros k f. apply rel_map_truthy.
    - apply elem_of_reconcile. by apply elem_of_enumerate_snd in Hin. }
  split; [|exact Hfalse].
  rewrite <- Hfalse. rewrite !compare_folders_unfold; cbn [snd].
  rewrite filter_concat_map. apply concat_map_ext. intros ir _.
  destruct progress_callback.
  - apply events_reads.
  - rewrite <- (events_reads _ _ _ _ _ _ _ hide_ignored ir) at 2.
    rewrite <- (events_reads _ _ _ _ _ _ _ hide_ignored ir).
    by rewrite list_filter_filter_l.
Qed.

End Runs.
End CompareMore.


(** ** [file_name_only] *)

Module NameMore.
Import Py App Report StrFacts ListingFacts.
Local Open Scope string_scope.

Lemma rfind_slash_ge p : (-1 ≤ rfind_slash p)%Z.
Proof.
  induction p as [|c p IH]; simpl; [lia|].
  destruct (decide (0 ≤ rfind_slash p)%Z); [lia|]. case_bool_decide; lia.
Qed.

Lemma contains_cons c s needle :
  contains (String c s) needle
  = startswith (String c s) needle || contains s needle.
Proof. done. Qed.

Lemma starts_slash c s :
  startswith (String c s) "/" = bool_decide (c = "/"%char).
Proof.
  simpl. rewrite andb_true_r.
  apply bool_decide_ext. split; congruence.
Qed.

Lemma no_slash_rfind s : contains s "/" = false ↔ rfind_slash s = (-1)%Z.
Proof.
  induction s as [|c s IH]; [done|].
  rewrite contains_cons, starts_slash. simpl.
  pose proof (rfind_slash_ge s).
  destruct (decide (0 ≤ rfind_slash s)%Z) as [Hr|Hr].
  - split; [|lia]. intros [_ Hs]%orb_false_iff. apply IH in Hs. lia.
  - assert (rfind_slash s = (-1)%Z) as Hs by lia. apply IH in Hs.
    rewrite Hs, orb_false_r. case_bool_decide; split; done || lia.
Qed.

Lemma basename_cons c p :
  posixpath_basename (String c p)
  = if decide (0 ≤ rfind_slash p)%Z then posixpath_basename p
    else if bool_decide (c = "/"%char) then p
    else String c p.
Proof.
  unfold posixpath_basename. simpl. pose proof (rfind_slash_ge p).
  destruct (decide (0 ≤ rfind_slash p)%Z) as [Hr|Hr].
  - replace (Z.to_nat (rfind_slash p + 1 + 1))
      with (Datatypes.S (Z.to_nat (rfind_slash p + 1))) by lia.
    done.
  - case_bool_decide; [done|]. done.
Qed.

Lemma basename_plain p : rfind_slash p = (-1)%Z → posixpath_basename p = p.
Proof. unfold posixpath_basename. by intros ->. Qed.

Lemma basename_no_slash p : contains (posixpath_basename p) "/" = false.
Proof.
  induction p as [|c p IH]; [done|].
  rewrite basename_cons. pose proof (rfind_slash_ge p).
  destruct (decide (0 ≤ rfind_slash p)%Z) as [Hr|Hr]; [done|].
  assert (rfind_slash p = (-1)%Z) as Hp by lia.
  rewrite (basename_plain _ Hp) in IH.
  case_bool_decide as Hc; [done|].
  rewrite contains_cons, starts_slash, IH. by rewrite bool_decide_eq_false_2.
Qed.

Lemma rfind_app s name :
  rfind_slash name = (-1)%Z → rfind_slash (s ++ name) = rfind_slash s.
Proof.
  intros Hname. induction s as [|c s IH]; [done|].
  rewrite app_cons. simpl. by rewrite IH.
Qed.

Lemma str_from_within n s t :
  (n ≤ String.length s)%nat → str_from n (s ++ t) = str_from n s ++ t.
Proof.
  revert s. induction n as [|n IH]; intros s Hn; [done|].
  destruct s as [|c s]; simpl in Hn; [lia|].
  rewrite app_cons. simpl. apply IH. lia.
Qed.

Lemma rfind_slash_lt s : (rfind_slash s < Z.of_nat (String.length s))%Z.
Proof.
  induction s as [|c s IH]; simpl; [lia|].
  destruct (decide (0 ≤ rfind_slash s)%Z); [lia|]. case_bool_decide; lia.
Qed.

Lemma basename_app s name :
  rfind_slash name = (-1)%Z →
  posixpath_basename (s ++ name) = posixpath_basename s ++ name.
Proof.
  intros Hname. unfold posixpath_basename. rewrite (rfind_app _ _ Hname).
  apply str_from_within.
  pose proof (rfind_slash_lt s). pose proof (rfind_slash_ge s). lia.
Qed.

Lemma basename_last s : last_slash s = true → posixpath_basename s = "".
Proof.
  induction s as [|c s IH]; [done|]. intros Hlast.
  rewrite basename_cons. destruct s as [|d s].
  - simpl in *. by rewrite Hlast.
  - assert (last_slash (String d s) = true) as Hs by exact Hlast.
    specialize (IH Hs).
    destruct (decide (0 ≤ rfind_slash (String d s))%Z) as [Hr|Hr]; [done|].
    pose proof (rfind_slash_ge (String d s)).
    assert (rfind_slash (String d s) = (-1)%Z) as Hp by lia.
    by rewrite (basename_plain _ Hp) in IH.
Qed.

Lemma last_slash_app s t : t ≠ "" → last_slash (s ++ t) = last_slash t.
Proof.
  intros Ht. induction s as [|c s IH]; [done|].
  rewrite app_cons. simpl. rewrite IH.
  destruct (s ++ t) eqn:Hst; [|done].
  destruct s; [|by rewrite app_cons in Hst]. by rewrite app_nil in Hst.
Qed.

Lemma no_slash_last s : contains s "/" = false → last_slash s = false.
Proof.
  induction s as [|c s IH]; [done|].
  rewrite contains_cons, starts_slash. intros [Hc Hs]%orb_false_iff.
  simpl. destruct s; [done|]. by apply IH.
Qed.

Lemma rstrip_keeps s : last_slash s = false → rstrip_slash s = s.
Proof.
  induction s as [|c s IH]; [done|]. intros Hlast. simpl.
  destruct s as [|d s].
  - simpl in *. by rewrite Hlast.
  - rewrite IH by exact Hlast. done.
Qed.

(** X13.  The name shown for a path never contains a separator. *)
Theorem file_name_only_no_separator path :
  contains (file_name_only path) "/" = false.
Proof. apply basename_no_slash. Qed.

(** X14.  The name shown for a file that [list_files] found is the
    directory entry's own name: joining a directory and an entry name that
    is not empty and has no separator, and taking [file_name_only], gives
    the entry name back. *)
Theorem file_name_only_join dir filename :
  filename ≠ "" → contains filename "/" = false →
  file_name_only (posixpath_join dir filename) = filename.
Proof.
  intros Hne Hno.
  assert (rfind_slash filename = (-1)%Z) as Hr by by apply no_slash_rfind.
  assert (last_slash filename = false) as Hlast by by apply no_slash_last.
  assert (startswith filename "/" = false) as Hfirst.
  { destruct filename as [|c s]; [done|].
    rewrite contains_cons in Hno. by apply orb_false_iff in Hno as [? _]. }
  assert (∀ s, last_slash s = true ∨ s = "" →
               file_name_only (s ++ filename) = filename) as Hgo.
  { intros s Hs. unfold file_name_only.
    rewrite rstrip_keeps by by rewrite last_slash_app.
    rewrite basename_app by done.
    destruct Hs as [Hs| ->]; [|done]. by rewrite basename_last. }
  unfold posixpath_join. rewrite Hfirst.
  destruct (bool_decide (dir = "")) eqn:Hd;
    rewrite ?orb_true_l, ?orb_false_l.
  - apply Hgo. right. by apply bool_decide_eq_true in Hd.
  - rewrite rev_starts. destruct (last_slash dir) eqn:Hl.
    + apply Hgo. by left.
    + rewrite <- str_app_assoc. apply Hgo. left.
      by rewrite last_slash_app.
Qed.

Lemma file_name_only_join_witness :
  file_name_only (posixpath_join "/srv/old/conf" "app.ini") = "app.ini".
Proof. by apply file_name_only_join. Defined.

End NameMore.


(** ** The page and the Excel sheet *)

Module PageMore.
Import Py App Report StrFacts IndexFacts LoopFacts CompareSpec CompareMore.
Local Open Scope string_scope.

(** [changed_lines] of the preview: the pairs that are not unchanged. *)
Definition changed_lines (l : list AlignedLinePair) : list AlignedLinePair :=
  filter (λ p : AlignedLinePair, p.2 ≠ Unchanged) l.

(** The records the page and the sheet skip. *)
Definition skipped (c : classification) : Prop := c = Unreadable ∨ c = Ignored.

Global Instance skipped_dec c : Decision (skipped c).
Proof. unfold skipped. apply _. Defined.

Lemma computed_rows_cons rec d :
  computed_rows (rec :: d) = (computed_rows [rec] ++ computed_rows d)%list.
Proof. unfold computed_rows. simpl. by destruct rec as [[f []] l]. Qed.

Lemma computed_rows_one f c l :
  computed_rows [(f, c, l)]
  = match c with
    | Unreadable | Ignored => []
    | _ => [ComputedRow (file_name_only f) (file_diff_status c l) c f l
              (any_changed l)]
    end.
Proof. by destruct c. Qed.

Lemma computed_rows_app d1 d2 :
  computed_rows (d1 ++ d2)%list = (computed_rows d1 ++ computed_rows d2)%list.
Proof. apply omap_app. Qed.

Lemma computed_rows_skipped (rec : FileComparisonRecord) :
  skipped rec.1.2 → computed_rows [rec] = [].
Proof. destruct rec as [[f c] l]. by intros [Hc|Hc]; simpl in Hc; subst c. Qed.

Lemma computed_rows_filter (P : FileComparisonRecord → Prop)
    `{∀ r, Decision (P r)} d :
  (∀ r, r ∈ d → ¬ P r → skipped r.1.2) →
  computed_rows (filter P d) = computed_rows d.
Proof.
  induction d as [|rec d IH]; intros Hskip; [done|].
  rewrite filter_cons, (computed_rows_cons rec d).
  destruct (decide (P rec)) as [HP|HP].
  - rewrite computed_rows_cons, IH; [done|].
    intros r Hr. apply Hskip. by right.
  - rewrite computed_rows_skipped by (apply Hskip; [by left|done]).
    rewrite IH; [done|]. intros r Hr. apply Hskip. by right.
Qed.

Lemma excel_step_skipped only_diffs ws (rec : FileComparisonRecord) :
  skipped rec.1.2 → excel_step only_diffs ws rec = ws.
Proof. destruct rec as [[f c] l]. by intros [Hc|Hc]; simpl in Hc; subst c. Qed.

Lemma excel_filter (P : FileComparisonRecord → Prop)
    `{∀ r, Decision (P r)} only_diffs d : ∀ ws,
  (∀ r, r ∈ d → ¬ P r → skipped r.1.2) →
  fold_left (excel_step only_diffs) (filter P d) ws
  = fold_left (excel_step only_diffs) d ws.
Proof.
  induction d as [|rec d IH]; intros ws Hskip; [done|].
  rewrite filter_cons. destruct (decide (P rec)) as [HP|HP]; cbn [fold_left].
  - apply IH. intros r Hr. apply Hskip. by right.
  - rewrite excel_step_skipped by (apply Hskip; [by left|done]).
    apply IH. intros r Hr. apply Hskip. by right.
Qed.

Lemma not_ignored_skipped (r : FileComparisonRecord) :
  ¬ r.1.2 ≠ Ignored → skipped r.1.2.
Proof. intros Hr. right. by destruct (decide (r.1.2 = Ignored)). Qed.

(** Counting the rows with a given status, one row at a time. *)
Lemma count_status_cons s r rows :
  count_status s (r :: rows)
  = (if decide (Status r = s) then 1 else 0) + count_status s rows.
Proof.
  unfold count_status, len. rewrite filter_cons.
  destruct (decide (Status r = s)); simpl length; lia.
Qed.

Lemma total_text_diffed_cons r rows :
  total_text_diffed (r :: rows)
  = (if decide (RawStatus r = BothPresentDiffed) then 1 else 0)
    + total_text_diffed rows.
Proof.
  unfold total_text_diffed, len. rewrite filter_cons.
  destruct (decide (RawStatus r = BothPresentDiffed)); simpl length; lia.
Qed.

Lemma filter_ext_in {A} (P Q : A → Prop) `{∀ x, Decision (P x)}
    `{∀ x, Decision (Q x)} (l : list A) :
  (∀ x, x ∈ l → P x ↔ Q x) → filter P l = filter Q l.
Proof.
  induction l as [|x l IH]; intros HPQ; [done|].
  rewrite !filter_cons.
  assert (P x ↔ Q x) as Hx by (apply HPQ; by left).
  rewrite IH by (intros y Hy; apply HPQ; by right).
  destruct (decide (P x)), (decide (Q x)); tauto || done.
Qed.

Lemma filter_none {A} (P : A → Prop) `{∀ x, Decision (P x)} (l : list A) :
  (∀ x, x ∈ l → ¬ P x) → filter P l = [].
Proof.
  induction l as [|x l IH]; intros Hno; [done|].
  rewrite filter_cons, decide_False by (apply Hno; by left).
  apply IH. intros y Hy. apply Hno. by right.
Qed.

(** X15.  The four counters of the page, for any list of records: every
    row is counted once among "Text files diffed", "Only in Old" and
    "Only in New", and the diffed files are the changed ones and those
    without differences. *)
Theorem counters_partition (differences : list FileComparisonRecord) :
  let rows := computed_rows differences in
  total_text_diffed rows + total_only_old rows + total_only_new rows = len rows
  ∧ total_changed rows + count_status "No differences" rows
    = total_text_diffed rows.
Proof.
  unfold total_only_old, total_only_new, total_changed. cbn zeta.
  induction differences as [|[[f c] l] d IH]; [done|].
  rewrite computed_rows_cons, computed_rows_one.
  destruct c; cbn [app];
    rewrite ?count_status_cons, ?total_text_diffed_cons;
    unfold len in *; cbn [length Status RawStatus file_diff_status];
    try (destruct (any_changed l));
    repeat case_decide; try done; lia.
Qed.

Section Page.
Variable fnmatch : string → string → bool.
Variables (sftp_old sftp_new : sftp) (folder_old folder_new : string).
Variables (ignore_patterns : list string).

Local Abbreviation files_old := (index_of sftp_old folder_old).
Local Abbreviation files_new := (index_of sftp_new folder_new).
Local Abbreviation all_files := (reconcile files_old files_new).
Local Abbreviation run hide cb :=
  (compare_folders fnmatch sftp_old sftp_new folder_old folder_new
     ignore_patterns hide cb).

(** The record of a reconciled path. *)
Definition record_for (rel : string) : FileComparisonRecord :=
  if should_ignore fnmatch rel ignore_patterns then (rel, Ignored, [])
  else
    match files_old !! rel, files_new !! rel with
    | Some _, None => (rel, OldOnly, [])
    | None, Some _ => (rel, NewOnly, [])
    | po, pn =>
        match read_file_lines sftp_old po, read_file_lines sftp_new pn with
        | Some lo, Some ln => (rel, BothPresentDiffed, side_by_side_diff lo ln)
        | _, _ => (rel, Unreadable, [])
        end
    end.

Lemma records_at_for cb total i rel :
  records_at fnmatch sftp_old sftp_new files_old files_new ignore_patterns
    false cb total (i, rel) = [record_for rel].
Proof.
  unfold records_at, compare_step, notify, record_for.
  destruct (should_ignore fnmatch rel ignore_patterns); [done|].
  destruct (files_old !! rel) as [po|] eqn:Ho;
    destruct (files_new !! rel) as [pn|] eqn:Hn;
    rewrite ?(rel_map_truthy _ _ _ _ Ho), ?(rel_map_truthy _ _ _ _ Hn); simpl;
    repeat (case_match; simplify_eq/=); done.
Qed.

Lemma run_shown cb : (run false cb).1 = record_for <$> all_files.
Proof.
  rewrite compare_folders_unfold; cbn [fst].
  generalize (len all_files) as total; intros total.
  rewrite <- (enumerate_snd 1 all_files) at 2.
  induction (enumerate 1 all_files) as [|[i rel] l IH]; [done|].
  cbn [map concat]. rewrite IH, records_at_for. by rewrite fmap_cons.
Qed.

Lemma run_hidden cb :
  (run true cb).1
  = filter (λ r : FileComparisonRecord, r.1.2 ≠ Ignored) (run false cb).1.
Proof.
  rewrite !compare_folders_unfold; cbn [fst].
  rewrite filter_concat_map. apply concat_map_ext.
  intros ir _. apply records_hidden.
Qed.

Lemma run_rows hide cb :
  computed_rows (run hide cb).1 = computed_rows (record_for <$> all_files).
Proof.
  rewrite <- (run_shown cb). destruct hide; [|done].
  rewrite run_hidden. apply computed_rows_filter.
  intros r _. apply not_ignored_skipped.
Qed.

(** X16.  [hide_ignored] changes nothing that is shown: the rows of the
    page (and so its counters) and the rows of the Excel sheet are the
    same for a run that hides the ignored files and one that lists
    them. *)
Theorem hide_ignored_not_visible progress_callback :
  computed_rows (run true progress_callback).1
    = computed_rows (run false progress_callback).1
  ∧ ∀ old_label new_label only_diffs,
      generate_excel_rows (run true progress_callback).1
        old_label new_label only_diffs
      = generate_excel_rows (run false progress_callback).1
          old_label new_label only_diffs.
Proof.
  split; [by rewrite !run_rows|].
  intros old_label new_label only_diffs. unfold generate_excel_rows.
  rewrite run_hidden. apply excel_filter.
  intros r _. apply not_ignored_skipped.
Qed.

(** The two documents of a path for which both reads succeed. *)
Definition both_read (rel : string) : option (list string * list string) :=
  if should_ignore fnmatch rel ignore_patterns then None
  else
    match read_file_lines sftp_old (files_old !! rel),
          read_file_lines sftp_new (files_new !! rel) with
    | Some lo, Some ln => Some (lo, ln)
    | _, _ => None
    end.

Definition differ (rel : string) : Prop :=
  match both_read rel with
  | Some (lo, ln) => lo ≠ ln
  | None => False
  end.

Global Instance differ_dec rel : Decision (differ rel).
Proof. unfold differ. destruct (both_read rel) as [[lo ln]|]; apply _. Defined.

(** Present in the index [mine] and absent from [other], and not
    ignored. *)
Definition only_in (mine other : gmap string string) (rel : string) : Prop :=
  should_ignore fnmatch rel ignore_patterns = false
  ∧ is_Some (mine !! rel) ∧ other !! rel = None.

Lemma count_rows (Q : computed_row → Prop) (P : string → Prop)
    `{∀ r, Decision (Q r)} `{∀ rel, Decision (P rel)} (l : list string) :
  (∀ rel, P rel → ∃ r, computed_rows [record_for rel] = [r] ∧ Q r) →
  (∀ rel r, ¬ P rel → r ∈ computed_rows [record_for rel] → ¬ Q r) →
  len (filter Q (computed_rows (record_for <$> l))) = len (filter P l).
Proof.
  intros Hyes Hno. unfold len. f_equal.
  induction l as [|rel l IH]; [done|].
  rewrite fmap_cons, computed_rows_cons, filter_app, length_app, IH.
  rewrite filter_cons. destruct (decide (P rel)) as [HP|HP].
  - destruct (Hyes _ HP) as (r&->&Hr).
    rewrite filter_cons, decide_True by done. done.
  - replace (filter Q (computed_rows [record_for rel])) with (@nil computed_row);
      [done|].
    symmetry. apply filter_none. intros r Hr. by apply (Hno rel).
Qed.

Lemma changed_status (lo ln : list string) :
  file_diff_status BothPresentDiffed (side_by_side_diff lo ln) = "Changed"
  ↔ lo ≠ ln.
Proof.
  unfold file_diff_status.
  pose proof (AlignMore.any_changed_iff_differ lo ln) as Hiff.
  destruct (any_changed _).
  - split; [|done]. intros _ Heq. apply Hiff in Heq. done.
  - split; [done|]. intros Hne. destruct Hne. by apply Hiff.
Qed.

(** X17.  What the counters of the page count after a run: "Text files
    diffed" the reconciled paths, not ignored, whose two files were both
    read; "Changed" those among them whose lines differ; "Only in Old" and
    "Only in New" the paths, not ignored, that one index has and the other
    has not. *)
Theorem counters_count_paths hide_ignored progress_callback :
  let rows := computed_rows (run hide_ignored progress_callback).1 in
  total_text_diffed rows = len (filter (λ rel, is_Some (both_read rel)) all_files)
  ∧ total_changed rows = len (filter differ all_files)
  ∧ total_only_old rows = len (filter (only_in files_old files_new) all_files)
  ∧ total_only_new rows = len (filter (only_in files_new files_old) all_files).
Proof.
  cbn zeta. rewrite run_rows.
  unfold total_text_diffed, total_changed, total_only_old, total_only_new,
    count_status.
  split_and!; apply count_rows.
  all: intros rel; unfold record_for, differ, both_read, only_in;
    destruct (should_ignore fnmatch rel ignore_patterns);
    destruct (files_old !! rel) as [po|];
    destruct (files_new !! rel) as [pn|]; cbn [read_file_lines];
    try destruct (open_rb sftp_old po) as [lo|];
    try destruct (open_rb sftp_new pn) as [ln|];
    rewrite computed_rows_one; cbn iota;
    try (pose proof (changed_status lo ln));
    try (intros r Hr; rewrite ?elem_of_nil, ?list_elem_of_singleton;
         try done; intros ->; cbn [Status RawStatus]);
    try (intros HP; eexists; split; [reflexivity|]; cbn [Status RawStatus]);
    try done; try naive_solver.
  all: unfold file_diff_status; by destruct (any_changed _).
Qed.

(** Rows computed from the records of a run: a file has changes exactly
    when its status is "Changed". *)
Lemma run_row_changes hide cb r :
  r ∈ computed_rows (run hide cb).1 →
  HasChanges r = true ↔ Status r = "Changed".
Proof.
  rewrite run_rows. generalize all_files as l.
  induction l as [|rel l IH]; [by intros ?%elem_of_nil|].
  rewrite fmap_cons, computed_rows_cons, elem_of_app.
  intros [Hr|Hr]; [|by apply IH]. revert Hr. unfold record_for.
  repeat (case_match; simplify_eq/=);
    rewrite ?elem_of_nil, ?list_elem_of_singleton; try done;
    intros ->; cbn [HasChanges Status file_diff_status]; try done.
Qed.

Section Filter.
Variable lower : string → string.

Lemma filtered_rows_sub rows sel search hc r :
  r ∈ filtered_rows lower rows sel search hc → r ∈ rows.
Proof.
  unfold filtered_rows. destruct hc, sel, (bool_decide (search = ""));
    rewrite ?list_elem_of_filter; naive_solver.
Qed.

(** X18.  After a run, ticking "Only show files with changes" keeps, of
    the rows the other two filters let through, exactly those with status
    "Changed". *)
Theorem has_changes_keeps_changed hide_ignored progress_callback
    selected_statuses file_search :
  let rows := computed_rows (run hide_ignored progress_callback).1 in
  filtered_rows lower rows selected_statuses file_search true
  = filter (λ r, Status r = "Changed")
      (filtered_rows lower rows selected_statuses file_search false).
Proof.
  cbn zeta.
  assert (∀ l : list computed_row,
            (∀ r, r ∈ l →
                  r ∈ computed_rows (run hide_ignored progress_callback).1) →
            filter (λ r, HasChanges r = true) l
            = filter (λ r, Status r = "Changed") l) as Hgo.
  { intros l Hl. apply filter_ext_in. intros r Hr.
    by apply (run_row_changes hide_ignored progress_callback), Hl. }
  unfold filtered_rows at 1.
  etrans; [apply Hgo|done].
  intros r Hr.
  by apply (filtered_rows_sub _ selected_statuses file_search false).
Qed.

End Filter.
End Page.

(** *** The sheet *)

Definition changed_record (rec : FileComparisonRecord) : FileComparisonRecord :=
  (rec.1.1, rec.1.2, changed_lines rec.2).

Lemma excel_lines_changed fname lines : ∀ ws,
  fold_left (excel_line_step fname true) lines ws
  = fold_left (excel_line_step fname false) (changed_lines lines) ws.
Proof.
  unfold changed_lines.
  induction lines as [|[[o n] s] lines IH]; intros ws; [done|].
  rewrite filter_cons. cbn [fold_left]. rewrite IH.
  destruct s; done.
Qed.

(** X19.  The sheet with "only differences" is the full sheet of the same
    records with the lines of each diffed file reduced to its changed
    lines, those the preview lists. *)
Theorem only_diffs_sheet differences old_label new_label :
  generate_excel_rows differences old_label new_label true
  = generate_excel_rows (changed_record <$> differences)
      old_label new_label false.
Proof.
  unfold generate_excel_rows. generalize (excel_head old_label new_label) as ws.
  induction differences as [|[[f c] l] d IH]; intros ws; [done|].
  rewrite fmap_cons. cbn [fold_left]. rewrite IH. f_equal.
  unfold changed_record; destruct c; cbn [excel_step fst snd]; try done.
  apply excel_lines_changed.
Qed.

Lemma computed_row_path (rec : FileComparisonRecord) d :
  rec ∈ d → ¬ skipped rec.1.2 → rec.1.1 ∈ FullPath <$> computed_rows d.
Proof.
  intros Hin Hskip. apply list_elem_of_fmap.
  destruct rec as [[f c] l].
  exists (ComputedRow (file_name_only f) (file_diff_status c l) c f l
            (any_changed l)).
  split; [done|]. unfold computed_rows. apply list_elem_of_omap.
  exists (f, c, l). split; [done|].
  destruct c; try done; destruct Hskip; by (left + right).
Qed.

(** X20.  Applying the file filter to the export when no row is filtered
    out gives the sheet of all the records. *)
Theorem export_unfiltered differences old_label new_label only_diffs :
  generate_excel_rows
    (export_differences differences (computed_rows differences))
    old_label new_label only_diffs
  = generate_excel_rows differences old_label new_label only_diffs.
Proof.
  unfold generate_excel_rows, export_differences. apply excel_filter.
  intros r Hr Hout. destruct (decide (skipped r.1.2)) as [|Hskip]; [done|].
  destruct Hout. apply elem_of_list_to_set. by apply computed_row_path.
Qed.

End PageMore.
